(** * rpc-proxy: the WebSocket relay and the CORS helper of [src/index.ts]

    The development embeds two parts of the worker:

    - [getCorsHeaders] (a pure function of the request and the environment);
    - the event handlers that [handleWebSocket] installs on the client-facing
      socket [server] and on the outbound socket [upstream], together with the
      closure variables they share ([bufferedData], [bufferTimeout],
      [isUpstreamConnected], [keepaliveTimer]).

    JavaScript runs every handler to completion before the next one starts, so
    a session is a sequence of events, each handled by a function from session
    state to session state.  What the runtime provides (the [readyState] of the
    two sockets, the pending timers, whether a [send] or [close] call throws)
    is part of the state or an explicit parameter. *)

From Stdlib Require Import ZArith NArith Ascii String Lia.
From stdpp Require Import base option list gmap strings.

Local Open Scope Z_scope.
Local Open Scope nat_scope.

(** ** JavaScript strings *)

(** A JavaScript string is a sequence of UTF-16 code units. *)
Definition jsstring := list N.

(** Literals of the source are written as Rocq strings and read as code units. *)
Definition js (s : string) : jsstring :=
  map N_of_ascii (list_ascii_of_string s).

(** [WhiteSpace] and [LineTerminator] of ECMAScript, the code units that
    [String.prototype.trim] strips. *)
Definition js_whitespace (c : N) : bool :=
  match c with
  | 9%N | 10%N | 11%N | 12%N | 13%N | 32%N | 160%N
  | 5760%N | 8232%N | 8233%N | 8239%N | 8287%N | 12288%N | 65279%N => true
  | _ => (8192 <=? c)%N && (c <=? 8202)%N
  end.

Fixpoint trim_start (s : jsstring) : jsstring :=
  match s with
  | c :: r => if js_whitespace c then trim_start r else s
  | [] => []
  end.

(** [s.trim()] *)
Definition trim (s : jsstring) : jsstring :=
  rev (trim_start (rev (trim_start s))).

(** [s.split(sep)] for a one-unit separator: never empty, the empty string
    gives one empty piece. *)
Fixpoint split (sep : N) (s : jsstring) : list jsstring :=
  match s with
  | [] => [[]]
  | c :: r =>
      if (c =? sep)%N then [] :: split sep r
      else match split sep r with
           | piece :: pieces => (c :: piece) :: pieces
           | [] => [[c]]
           end
  end.

Definition jsstring_eqb (a b : jsstring) : bool := bool_decide (a = b).

(** [arr.includes(x)] on an array of strings. *)
Definition includes (arr : list jsstring) (x : jsstring) : bool :=
  existsb (jsstring_eqb x) arr.

(** Truthiness of a value of type [string | null]: null and the empty string
    are falsy. *)
Definition truthy_string (o : option jsstring) : bool :=
  match o with
  | Some (_ :: _) => true
  | _ => false
  end.

(** ** [getCorsHeaders] *)

Module Cors.

(** The part of [Env] that [getCorsHeaders] reads. *)
Record Env := { CORS_ALLOW_ORIGIN : option jsstring }.

(** The part of [Request] that [getCorsHeaders] reads: the result of
    [request.headers.get('Origin')]. *)
Record Request := { header_Origin : option jsstring }.

Definition comma : N := 44%N.

(** [env.CORS_ALLOW_ORIGIN?.split(',').map(d => d.trim())] *)
Definition supportedDomains (env : Env) : option (list jsstring) :=
  match CORS_ALLOW_ORIGIN env with
  | Some v => Some (map trim (split comma v))
  | None => None
  end.

Definition base_headers : gmap string jsstring :=
  <["Access-Control-Allow-Headers" := js "Content-Type, Authorization"]>
    (<["Access-Control-Allow-Methods" := js "GET, HEAD, POST, PUT, OPTIONS"]> ∅).

(** The condition [supportedDomains && origin && supportedDomains.includes(origin)];
    an array is always truthy. *)
Definition origin_allowed (env : Env) (request : Request) : bool :=
  match supportedDomains env, header_Origin request with
  | Some domains, Some origin =>
      truthy_string (Some origin) && includes domains origin
  | _, _ => false
  end.

Definition getCorsHeaders (request : Request) (env : Env) : gmap string jsstring :=
  match header_Origin request with
  | Some origin =>
      if origin_allowed env request
      then <["Access-Control-Allow-Origin" := origin]> base_headers
      else <["Access-Control-Allow-Origin" := js "*"]> base_headers
  | None => <["Access-Control-Allow-Origin" := js "*"]> base_headers
  end.

End Cors.

(** ** The relay of [handleWebSocket] *)

Module Relay.

(** Configuration constants of the source. *)
Definition BUFFER_TIMEOUT_MS : Z := 10000.
Definition KEEPALIVE_INTERVAL_MS : Z := 20000.
Definition MAX_BUFFER_SIZE : nat := 10.

Definition dquote : string := String "034"%char EmptyString.

(** [JSON.stringify({ jsonrpc: "2.0", method: "helius_keepalive" })] *)
Definition KEEPALIVE_MESSAGE : jsstring :=
  js ("{" ++ dquote ++ "jsonrpc" ++ dquote ++ ":" ++ dquote ++ "2.0" ++ dquote ++ ","
      ++ dquote ++ "method" ++ dquote ++ ":" ++ dquote ++ "helius_keepalive" ++ dquote ++ "}")%string.

(** [WebSocket.readyState] *)
Inductive ReadyState := CONNECTING | OPEN | CLOSING | CLOSED.

Definition is_open (r : ReadyState) : bool :=
  match r with OPEN => true | _ => false end.

(** The two sockets of a session: [server] faces the client, [upstream] is the
    outbound connection. *)
Inductive Conn := Server | Upstream.

(** [event.data : string | ArrayBuffer] *)
Inductive Frame :=
| Text (s : jsstring)
| Binary (b : list Byte.byte).

(** Where in the source a [send] is issued: the flush loop of the upstream
    [open] listener, the live branch of the [server] message listener, the
    keepalive interval, the upstream message listener. *)
Inductive Origin := Flushed | Live | Keepalive | Downstream.

(** A call on one of the two sockets, with whether it returned ([true]) or
    threw ([false]).  [Close c None] is [c.close()], [Close c (Some (code,
    reason))] is [c.close(code, reason)]. *)
Inductive Call :=
| Send (c : Conn) (o : Origin) (d : Frame) (returned : bool)
| Close (c : Conn) (args : option (Z * string)) (returned : bool).

(** The closure variables of [handleWebSocket], then what the runtime holds for
    the session: the ready state of both sockets, the pending timers (handles
    of [setTimeout], of [setInterval]), the next fresh handle, and the calls
    made so far on the sockets, oldest first.  [tornDown] is a history
    variable: it records that [cleanup] has run, and no handler reads it. *)
Record Session := mkSession {
  bufferedData : list Frame;
  bufferTimeout : option nat;
  isUpstreamConnected : bool;
  keepaliveTimer : option nat;
  upstream_readyState : ReadyState;
  server_readyState : ReadyState;
  timeouts : list nat;
  intervals : list nat;
  next_timer : nat;
  calls : list Call;
  tornDown : bool
}.

Definition set_bufferedData (v : list Frame) (s : Session) : Session :=
  match s with
  | mkSession _ bt uc kt ur sr ts ivs nt cs td =>
      mkSession v bt uc kt ur sr ts ivs nt cs td
  end.

Definition set_bufferTimeout (v : option nat) (s : Session) : Session :=
  match s with
  | mkSession q _ uc kt ur sr ts ivs nt cs td =>
      mkSession q v uc kt ur sr ts ivs nt cs td
  end.

Definition set_isUpstreamConnected (v : bool) (s : Session) : Session :=
  match s with
  | mkSession q bt _ kt ur sr ts ivs nt cs td =>
      mkSession q bt v kt ur sr ts ivs nt cs td
  end.

Definition set_keepaliveTimer (v : option nat) (s : Session) : Session :=
  match s with
  | mkSession q bt uc _ ur sr ts ivs nt cs td =>
      mkSession q bt uc v ur sr ts ivs nt cs td
  end.

Definition set_upstream_readyState (v : ReadyState) (s : Session) : Session :=
  match s with
  | mkSession q bt uc kt _ sr ts ivs nt cs td =>
      mkSession q bt uc kt v sr ts ivs nt cs td
  end.

Definition set_server_readyState (v : ReadyState) (s : Session) : Session :=
  match s with
  | mkSession q bt uc kt ur _ ts ivs nt cs td =>
      mkSession q bt uc kt ur v ts ivs nt cs td
  end.

Definition set_timeouts (v : list nat) (s : Session) : Session :=
  match s with
  | mkSession q bt uc kt ur sr _ ivs nt cs td =>
      mkSession q bt uc kt ur sr v ivs nt cs td
  end.

Definition set_intervals (v : list nat) (s : Session) : Session :=
  match s with
  | mkSession q bt uc kt ur sr ts _ nt cs td =>
      mkSession q bt uc kt ur sr ts v nt cs td
  end.

Definition set_next_timer (v : nat) (s : Session) : Session :=
  match s with
  | mkSession q bt uc kt ur sr ts ivs _ cs td =>
      mkSession q bt uc kt ur sr ts ivs v cs td
  end.

Definition set_calls (v : list Call) (s : Session) : Session :=
  match s with
  | mkSession q bt uc kt ur sr ts ivs nt _ td =>
      mkSession q bt uc kt ur sr ts ivs nt v td
  end.

Definition set_tornDown (v : bool) (s : Session) : Session :=
  match s with
  | mkSession q bt uc kt ur sr ts ivs nt cs _ =>
      mkSession q bt uc kt ur sr ts ivs nt cs v
  end.

Definition readyState (c : Conn) (s : Session) : ReadyState :=
  match c with Server => server_readyState s | Upstream => upstream_readyState s end.

Definition set_readyState (c : Conn) (v : ReadyState) (s : Session) : Session :=
  match c with
  | Server => set_server_readyState v s
  | Upstream => set_upstream_readyState v s
  end.

(** The state right after [handleWebSocket] returns: [server.accept()] has made
    the client-facing socket open, [new WebSocket(upstreamUrl)] is connecting,
    nothing is buffered and no timer is set.  Timer handles are positive, so a
    handle is truthy. *)
Definition init : Session :=
  mkSession [] None false None CONNECTING OPEN [] [] 1 [] false.

(** *** Statements: state passing with exceptions *)

Inductive Completion := Normal | Thrown.

Definition Stmt := Session → Completion * Session.

Definition skip : Stmt := λ s, (Normal, s).

Definition assign (f : Session → Session) : Stmt := λ s, (Normal, f s).

Definition andThen (a b : Stmt) : Stmt :=
  λ s, match a s with
       | (Normal, s') => b s'
       | (Thrown, s') => (Thrown, s')
       end.

Declare Scope stmt_scope.
Delimit Scope stmt_scope with stmt.
Bind Scope stmt_scope with Stmt.
Notation "a ;; b" := (andThen a b%stmt)
  (at level 100, b at level 200, right associativity) : stmt_scope.
Local Open Scope stmt_scope.

(** [try { body } catch { handler }] *)
Definition try_catch (body handler : Stmt) : Stmt :=
  λ s, match body s with
       | (Normal, s') => (Normal, s')
       | (Thrown, s') => handler s'
       end.

(** [try { body } catch { handler; return; }  rest] *)
Definition try_catch_return (body handler rest : Stmt) : Stmt :=
  λ s, match body s with
       | (Normal, s') => rest s'
       | (Thrown, s') => handler s'
       end.

Definition ifte (cond : Session → bool) (a b : Stmt) : Stmt :=
  λ s, if cond s then a s else b s.

(** [for (const data of arr) { body(data) }] *)
Fixpoint for_of (arr : list Frame) (body : Frame → Stmt) : Stmt :=
  match arr with
  | [] => skip
  | data :: rest => body data ;; for_of rest body
  end.

(** [clearTimeout(id)] / [clearInterval(id)] on the pending handles. *)
Definition remove_timer (id : nat) (pending : list nat) : list nat :=
  List.filter (λ j, negb (j =? id)) pending.

Section Handlers.

(** Whether the [n]-th call made on the sockets during the session (counting
    from 0, [send] and [close] alike) throws.  Every behaviour of the two
    sockets is some such function. *)
Variable throws : nat → bool.

(** [c.send(d)] *)
Definition send (c : Conn) (o : Origin) (d : Frame) : Stmt :=
  λ s, if throws (length (calls s))
       then (Thrown, set_calls (calls s ++ [Send c o d false]) s)
       else (Normal, set_calls (calls s ++ [Send c o d true]) s).

(** [c.close(...)]: a call that returns starts the closing handshake of a
    socket that is not closed already. *)
Definition close (c : Conn) (args : option (Z * string)) : Stmt :=
  λ s, if throws (length (calls s))
       then (Thrown, set_calls (calls s ++ [Close c args false]) s)
       else (Normal,
             set_readyState c
               (match readyState c s with CLOSED => CLOSED | _ => CLOSING end)
               (set_calls (calls s ++ [Close c args true]) s)).

(** [try { c.close(...) } catch { }] *)
Definition try_close (c : Conn) (args : option (Z * string)) : Stmt :=
  try_catch (close c args) skip.

Definition clearKeepalive (s : Session) : Session :=
  match keepaliveTimer s with
  | Some id => set_keepaliveTimer None (set_intervals (remove_timer id (intervals s)) s)
  | None => s
  end.

Definition clearBufferTimeout (s : Session) : Session :=
  match bufferTimeout s with
  | Some id => set_bufferTimeout None (set_timeouts (remove_timer id (timeouts s)) s)
  | None => s
  end.

(** [cleanup]; the history variable [tornDown] notes that it has run. *)
Definition cleanup (s : Session) : Session :=
  set_tornDown true (set_bufferedData [] (clearBufferTimeout (clearKeepalive s))).

(** The callback of [setInterval] in [startKeepalive]. *)
Definition keepalive_tick : Stmt :=
  ifte (λ s, is_open (upstream_readyState s))
    (try_catch (send Upstream Keepalive (Text KEEPALIVE_MESSAGE))
               (assign clearKeepalive))
    (assign clearKeepalive).

Definition startKeepalive (s : Session) : Session :=
  let id := next_timer s in
  set_keepaliveTimer (Some id)
    (set_next_timer (S id) (set_intervals (intervals s ++ [id]) s)).

(** The callback of [setTimeout] in [startBufferTimeout]. *)
Definition bufferTimeout_fired : Stmt :=
  ifte (λ s, (0 <? length (bufferedData s)) && negb (isUpstreamConnected s))
    (assign (set_bufferedData []) ;;
     try_close Server (Some (1011%Z, "upstream_connection_timeout"%string)))
    skip.

Definition startBufferTimeout (s : Session) : Session :=
  let s1 := clearBufferTimeout s in
  let id := next_timer s1 in
  set_bufferTimeout (Some id)
    (set_next_timer (S id) (set_timeouts (timeouts s1 ++ [id]) s1)).

(** [upstream.addEventListener('open', ...)] *)
Definition upstream_on_open : Stmt :=
  assign (set_isUpstreamConnected true) ;;
  assign clearBufferTimeout ;;
  ifte (λ s, 0 <? length (bufferedData s))
    (try_catch_return
       (λ s, (for_of (bufferedData s) (send Upstream Flushed) ;;
              assign (set_bufferedData [])) s)
       (assign cleanup ;;
        try_close Server (Some (1011%Z, "upstream_ws_error"%string)))
       (assign startKeepalive))
    (assign startKeepalive).

(** [server.addEventListener('message', ...)] *)
Definition server_on_message (data : Frame) : Stmt :=
  ifte (λ s, isUpstreamConnected s && is_open (upstream_readyState s))
    (try_catch (send Upstream Live data)
       (assign cleanup ;;
        try_close Server (Some (1011%Z, "upstream_ws_error"%string))))
    (ifte (λ s, MAX_BUFFER_SIZE <=? length (bufferedData s))
       (assign cleanup ;;
        try_close Server (Some (1011%Z, "buffer_overflow"%string)))
       (ifte (λ s, length (bufferedData s) =? 0)
          (assign startBufferTimeout) skip ;;
        assign (λ s, set_bufferedData (bufferedData s ++ [data]) s))).

(** [upstream.addEventListener('message', ...)] *)
Definition upstream_on_message (data : Frame) : Stmt :=
  ifte (λ s, is_open (server_readyState s))
    (try_catch (send Server Downstream data)
       (assign cleanup ;;
        try_close Upstream (Some (1011%Z, "client_ws_error"%string))))
    skip.

(** [server.addEventListener('close', ...)] *)
Definition server_on_close : Stmt :=
  assign cleanup ;; try_close Upstream None.

(** [upstream.addEventListener('close', ...)] *)
Definition upstream_on_close : Stmt :=
  assign (set_isUpstreamConnected false) ;;
  assign cleanup ;; try_close Server None.

(** [server.addEventListener('error', ...)] *)
Definition server_on_error : Stmt :=
  assign cleanup ;;
  try_close Upstream (Some (1011%Z, "client_ws_error"%string)).

(** [upstream.addEventListener('error', ...)] *)
Definition upstream_on_error : Stmt :=
  assign (set_isUpstreamConnected false) ;;
  assign cleanup ;;
  try_close Server (Some (1011%Z, "upstream_ws_error"%string)).

(** *** Events of a session *)

(** What the runtime can deliver to a session.  [UpstreamClosing] and
    [ServerClosing] are the peer starting the closing handshake: the ready
    state changes and no listener runs. *)
Inductive Event :=
| UpstreamOpen
| ServerMessage (data : Frame)
| UpstreamMessage (data : Frame)
| ServerClose
| UpstreamClose
| ServerError
| UpstreamError
| BufferTimeoutFires (id : nat)
| KeepaliveTick (id : nat)
| UpstreamClosing
| ServerClosing.

Definition member (id : nat) (l : list nat) : bool := existsb (Nat.eqb id) l.

Definition not_closed (r : ReadyState) : bool :=
  match r with CLOSED => false | _ => true end.

Definition receiving (r : ReadyState) : bool :=
  match r with OPEN | CLOSING => true | _ => false end.

(** One event: [None] when the runtime cannot deliver it in this state.
    - [open] is fired once, when a connecting socket becomes open;
    - messages arrive on a socket that is open or closing;
    - [close] is fired once, and the socket is closed from then on;
    - a timeout fires once, while pending; an interval fires while pending. *)
Definition dispatch (e : Event) (s : Session) : option (Completion * Session) :=
  match e with
  | UpstreamOpen =>
      match upstream_readyState s with
      | CONNECTING => Some (upstream_on_open (set_upstream_readyState OPEN s))
      | _ => None
      end
  | ServerMessage data =>
      if receiving (server_readyState s) then Some (server_on_message data s) else None
  | UpstreamMessage data =>
      if receiving (upstream_readyState s) then Some (upstream_on_message data s) else None
  | ServerClose =>
      if not_closed (server_readyState s)
      then Some (server_on_close (set_server_readyState CLOSED s)) else None
  | UpstreamClose =>
      if not_closed (upstream_readyState s)
      then Some (upstream_on_close (set_upstream_readyState CLOSED s)) else None
  | ServerError => Some (server_on_error s)
  | UpstreamError => Some (upstream_on_error s)
  | BufferTimeoutFires id =>
      if member id (timeouts s)
      then Some (bufferTimeout_fired (set_timeouts (remove_timer id (timeouts s)) s))
      else None
  | KeepaliveTick id =>
      if member id (intervals s) then Some (keepalive_tick s) else None
  | UpstreamClosing =>
      match upstream_readyState s with
      | CONNECTING | OPEN => Some (Normal, set_upstream_readyState CLOSING s)
      | _ => None
      end
  | ServerClosing =>
      match server_readyState s with
      | OPEN => Some (Normal, set_server_readyState CLOSING s)
      | _ => None
      end
  end.

(** A session: the events are handled one after the other.  An exception that
    escaped a listener would be reported by the runtime and the session would
    go on, so the completion is dropped here; [handlers_complete] below shows
    that no listener lets one escape. *)
Fixpoint run (evs : list Event) (s : Session) : option Session :=
  match evs with
  | [] => Some s
  | e :: rest =>
      match dispatch e s with
      | Some (_, s') => run rest s'
      | None => None
      end
  end.

End Handlers.

(** *** Observations *)

(** The frames the client sent, in order. *)
Definition client_frame (e : Event) : option Frame :=
  match e with ServerMessage d => Some d | _ => None end.

Definition client_frames (evs : list Event) : list Frame := omap client_frame evs.

(** The client frames the upstream received: the [upstream.send] calls of the
    flush and of live forwarding that returned. *)
Definition relayed_frame (c : Call) : option Frame :=
  match c with
  | Send Upstream Flushed d true | Send Upstream Live d true => Some d
  | _ => None
  end.

Definition upstream_received (log : list Call) : list Frame := omap relayed_frame log.

(** Every attempt to send to the upstream, successful or not. *)
Definition is_upstream_send (c : Call) : bool :=
  match c with Send Upstream _ _ _ => true | _ => false end.

Definition is_keepalive_send (c : Call) : bool :=
  match c with Send Upstream Keepalive _ _ => true | _ => false end.

Definition is_close_of (k : Conn) (c : Call) : bool :=
  match c, k with
  | Close Server _ _, Server | Close Upstream _ _, Upstream => true
  | _, _ => false
  end.

(** A timer is armed when the runtime holds a pending handle for it. *)
Definition keepalive_armed (s : Session) : bool :=
  match intervals s with [] => false | _ :: _ => true end.
Definition buffer_timer_armed (s : Session) : bool :=
  match timeouts s with [] => false | _ :: _ => true end.

(** Whether the timer whose handle is in a variable is still pending. *)
Definition handle_pending (var : option nat) (pending : list nat) : bool :=
  match var with
  | Some id => member id pending
  | None => false
  end.

(** The state [r] that a terminal listener leaves from [s]: teardown has run
    (queue empty, both timer variables null and their timers no longer
    pending) and one call [c.close(args)] was made, which returned or threw
    according to [returned]. *)
Definition teardown_then_close (s r : Session) (c : Conn)
    (args : option (Z * string)) (returned : bool) : Prop :=
  calls r = calls s ++ [Close c args returned]
  ∧ bufferedData r = []
  ∧ bufferTimeout r = None
  ∧ keepaliveTimer r = None
  ∧ handle_pending (bufferTimeout s) (timeouts r) = false
  ∧ handle_pending (keepaliveTimer s) (intervals r) = false
  ∧ tornDown r = true.

(** RFC 6455 status code 1008, "policy violation". *)
Definition POLICY_VIOLATION : Z := 1008.

(** Sample inputs: sockets whose calls never throw, a text frame, and a
    client that sends [n] frames. *)
Definition never_throws : nat → bool := λ _, false.
Definition throws_at (k : nat) : nat → bool := λ n, n =? k.
Definition frameA : Frame := Text (js "A").
Definition frameB : Frame := Text (js "B").
Definition burst (n : nat) : list Event := repeat (ServerMessage frameA) n.

(** The index of the first of [len] consecutive calls, starting with call
    number [n], that throws. *)
Fixpoint first_failure (throws : nat → bool) (n len : nat) : option nat :=
  match len with
  | 0 => None
  | S len' => if throws n then Some 0 else S <$> first_failure throws (S n) len'
  end.

Definition flushed_ok (d : Frame) : Call := Send Upstream Flushed d true.
Definition flushed_failed (d : Frame) : Call := Send Upstream Flushed d false.

(** A variable holding a timer handle and the pending handles of that kind:
    nothing is pending, or exactly the handle in the variable. *)
Definition timer_var_ok (var : option nat) (pending : list nat) : Prop :=
  pending = [] ∨ ∃ id, var = Some id ∧ pending = [id].

(** What holds between two handler executions of a session. *)
Record Inv (s : Session) : Prop := mkInv {
  inv_timeouts : timer_var_ok (bufferTimeout s) (timeouts s);
  inv_intervals : timer_var_ok (keepaliveTimer s) (intervals s);
  inv_connecting :
    upstream_readyState s = CONNECTING →
    isUpstreamConnected s = false ∧ intervals s = []
    ∧ List.filter is_upstream_send (calls s) = [];
  inv_armed_connected : intervals s ≠ [] → isUpstreamConnected s = true;
  inv_gate :
    isUpstreamConnected s = true → upstream_readyState s = OPEN →
    bufferedData s = [];
  inv_armed_nonempty : timeouts s ≠ [] → bufferedData s ≠ [];
  inv_nonempty_armed :
    bufferedData s ≠ [] → isUpstreamConnected s = false → timeouts s ≠ [];
  inv_bound : length (bufferedData s) ≤ MAX_BUFFER_SIZE
}.

(** What one event does to a session that satisfies the invariant: the
    listener completes, the invariant holds again, the frames newly received by
    the upstream followed by the new queue are taken in order from the old
    queue followed by the frame of the event, nothing is sent to the upstream
    while it has not opened, and a keepalive that is disarmed once the upstream
    has left the connecting state stays disarmed. *)
Definition step_facts (e : Event) (s : Session) (c : Completion) (s' : Session) : Prop :=
  c = Normal
  ∧ Inv s'
  ∧ (∃ sent, upstream_received (calls s') = upstream_received (calls s) ++ sent
       ∧ sublist (sent ++ bufferedData s')
                 (bufferedData s ++ option_list (client_frame e)))
  ∧ (e ≠ UpstreamOpen → isUpstreamConnected s = false → intervals s = [] →
     isUpstreamConnected s' = false ∧ intervals s' = []
     ∧ List.filter is_upstream_send (calls s')
       = List.filter is_upstream_send (calls s))
  ∧ (upstream_readyState s ≠ CONNECTING → intervals s = [] →
     upstream_readyState s' ≠ CONNECTING ∧ intervals s' = []
     ∧ List.filter is_keepalive_send (calls s')
       = List.filter is_keepalive_send (calls s)).

End Relay.

(** ** More observations on the relay *)

Module RelayExtra.
Import Relay.

(** A [send] attempted on socket [k]. *)
Definition is_send_to (k : Conn) (c : Call) : bool :=
  match c, k with
  | Send Server _ _ _, Server | Send Upstream _ _ _, Upstream => true
  | _, _ => false
  end.

Definition sends_to (k : Conn) (log : list Call) : list Call :=
  List.filter (is_send_to k) log.

(** A socket that has started to close or is closed. *)
Definition winding_down (r : ReadyState) : bool :=
  match r with CLOSING | CLOSED => true | _ => false end.

(** Both sockets are closed. *)
Definition both_closed (s : Session) : bool :=
  match server_readyState s, upstream_readyState s with
  | CLOSED, CLOSED => true
  | _, _ => false
  end.

(** Nothing is held for the session: no pending timer, no queued frame. *)
Definition released (s : Session) : Prop :=
  timeouts s = [] ∧ intervals s = [] ∧ bufferedData s = [].

(** A keepalive send that threw. *)
Definition is_failed_keepalive (c : Call) : bool :=
  match c with Send Upstream Keepalive _ false => true | _ => false end.

Definition failed_keepalives (log : list Call) : list Call :=
  List.filter is_failed_keepalive log.

(** The event is a tick of the keepalive interval. *)
Definition is_tick (e : Event) : bool :=
  match e with KeepaliveTick _ => true | _ => false end.

(** The converse direction of the keepalive invariant, for one event. *)
Definition keepalive_step (e : Event) (s s' : Session) : Prop :=
  (is_tick e = false →
   (isUpstreamConnected s = true → tornDown s = false → intervals s ≠ []) →
   isUpstreamConnected s' = true → tornDown s' = false → intervals s' ≠ [])
  ∧ ((isUpstreamConnected s = true → tornDown s = false →
      upstream_readyState s = OPEN → failed_keepalives (calls s) = [] →
      intervals s ≠ []) →
     isUpstreamConnected s' = true → tornDown s' = false →
     upstream_readyState s' = OPEN → failed_keepalives (calls s') = [] →
     intervals s' ≠ [])
  ∧ (tornDown s = false → tornDown s' = true → intervals s' = [])
  ∧ (upstream_readyState s ≠ CONNECTING → upstream_readyState s' ≠ CONNECTING)
  ∧ (e = UpstreamOpen → upstream_readyState s' ≠ CONNECTING).

End RelayExtra.

(** ** The request handlers: [fetch], [handleWebhookForwarding],
    [handleWebSocket] (the handshake), [handleRPC] *)

Module Worker.

(** [interface Env].  [HELIUS_API_KEY] is declared a string, and [fetch] tests
    it before use, so it can be missing at run time. *)
Record Env := {
  HELIUS_API_KEY : option jsstring;
  CORS_ALLOW_ORIGIN : option jsstring;
  BACKEND_WEBHOOK_URL : jsstring;
  WEBHOOK_SECRET : option jsstring
}.

(** What the handlers read of a [Request]: the method, the [pathname] and
    [search] of [new URL(request.url)], the headers (a [Headers] object: names
    in lower case, one value per name) and the text of the body. *)
Record Request := {
  method : jsstring;
  pathname : jsstring;
  search : jsstring;
  headers : gmap string jsstring;
  text : jsstring
}.

(** A request handed to the global [fetch]. *)
Record OutRequest := {
  out_url : jsstring;
  out_method : jsstring;
  out_headers : gmap string jsstring;
  out_body : option jsstring
}.

(** What the global [fetch] resolves to. *)
Record NetResponse := {
  net_status : Z;
  net_body : option jsstring
}.

(** [new Response(body, { status, headers })] *)
Record Response := {
  status : Z;
  resp_headers : gmap string jsstring;
  body : option jsstring
}.

(** The upstream socket that [handleWebSocket] opens, and the session that
    starts with it. *)
Record Upgrade := {
  upstreamUrl : jsstring;
  protocols : list jsstring;
  session : Relay.Session
}.

(** How a handler ends: with a response, with the 101 response of an accepted
    WebSocket, or with an exception that leaves the handler. *)
Inductive Reply :=
| Plain (r : Response)
| Upgraded (r : Response) (u : Upgrade)
| Rejected.

(** A handler's reply and the requests it handed to [fetch], in order. *)
Definition Handled : Type := Reply * list OutRequest.

(** [`${v}`] for a value that may be undefined. *)
Definition interpolate (v : option jsstring) : jsstring :=
  match v with Some x => x | None => js "undefined" end.

Definition cors_env (env : Env) : Cors.Env :=
  {| Cors.CORS_ALLOW_ORIGIN := CORS_ALLOW_ORIGIN env |}.

(** [request.headers.get('Origin')] *)
Definition cors_request (request : Request) : Cors.Request :=
  {| Cors.header_Origin := headers request !! "origin"%string |}.

(** [clientProtocols?.split(',')[0]?.trim()] *)
Definition selectedProtocol (request : Request) : option jsstring :=
  match headers request !! "sec-websocket-protocol"%string with
  | Some clientProtocols => Some (trim (hd [] (split Cors.comma clientProtocols)))
  | None => None
  end.

(** The template literal of [handleWebSocket]. *)
Definition ws_upstreamUrl (request : Request) (env : Env) : jsstring :=
  js "wss://mainnet.helius-rpc.com"
  ++ (if truthy_string (Some (search request))
      then search request ++ js "&" else js "?")
  ++ js "api-key=" ++ interpolate (HELIUS_API_KEY env).

(** [targetHost] and [targetUrl] of [handleRPC]; [search.slice(1)] drops the
    question mark. *)
Definition targetHost (request : Request) : jsstring :=
  if jsstring_eqb (pathname request) (js "/")
  then js "mainnet.helius-rpc.com" else js "api.helius.xyz".

Definition targetUrl (request : Request) (env : Env) : jsstring :=
  js "https://" ++ targetHost request ++ pathname request
  ++ js "?api-key=" ++ interpolate (HELIUS_API_KEY env)
  ++ (if truthy_string (Some (search request))
      then js "&" ++ drop 1 (search request) else []).

(** [new Headers(request.headers)], three [delete]s and one [set]. *)
Definition anonymizedHeaders (request : Request) : gmap string jsstring :=
  <["content-type"%string := js "application/json"]>
    (delete "true-client-ip"%string
       (delete "x-forwarded-for"%string
          (delete "cf-connecting-ip"%string (headers request)))).

(** [payload || null] *)
Definition or_null (payload : jsstring) : option jsstring :=
  match payload with [] => None | _ :: _ => Some payload end.

(** The arguments of [new Request(targetUrl, { method, body, headers })] in
    [handleRPC]. *)
Definition proxyRequest (request : Request) (env : Env) : OutRequest :=
  {| out_url := targetUrl request env;
     out_method := method request;
     out_headers := anonymizedHeaders request;
     out_body := or_null (text request) |}.

(** The [Request] constructor throws a [TypeError] for a GET or HEAD request
    with a body.  ([request.method] is normalised by the runtime, so the two
    methods are compared as they are spelled.) *)
Definition get_or_head_with_body (out : OutRequest) : bool :=
  (jsstring_eqb (out_method out) (js "GET")
   || jsstring_eqb (out_method out) (js "HEAD"))
  && match out_body out with Some _ => true | None => false end.

Section Handlers.

(** The global [fetch]: [None] when the promise rejects. *)
Variable net : OutRequest → option NetResponse.

(** Whether [new WebSocket(url, protocols)] throws. *)
Variable websocket_throws : jsstring → list jsstring → bool.

(** [String.prototype.toLowerCase] *)
Variable toLowerCase : jsstring → jsstring.

Definition handleWebhookForwarding (request : Request) (env : Env) : Handled :=
  if negb (jsstring_eqb (method request) (js "POST"))
  then (Plain {| status := 405; resp_headers := ∅;
                 body := Some (js "Method Not Allowed") |}, [])
  else if truthy_string (WEBHOOK_SECRET env)
          && negb (bool_decide (headers request !! "authorization"%string
                                = WEBHOOK_SECRET env))
  then (Plain {| status := 401; resp_headers := ∅;
                 body := Some (js "Unauthorized") |}, [])
  else
    let payload := text request in
    let out :=
      {| out_url := BACKEND_WEBHOOK_URL env;
         out_method := js "POST";
         out_headers :=
           <["x-forwarded-from"%string := js "Cloudflare-Worker-Shield"]>
             (<["content-type"%string := js "application/json"]> ∅);
         out_body := Some payload |} in
    match net out with
    | Some backendResponse =>
        (Plain {| status := net_status backendResponse; resp_headers := ∅;
                  body := net_body backendResponse |}, [out])
    | None => (Rejected, [out])
    end.

Definition handleWebSocket (request : Request) (env : Env)
    (corsHeaders : gmap string jsstring) : Handled :=
  let url := ws_upstreamUrl request env in
  let selected := selectedProtocol request in
  let protos :=
    match selected with
    | Some p => if truthy_string selected then [p] else []
    | None => []
    end in
  if websocket_throws url protos then (Rejected, [])
  else
    let responseHeaders :=
      match selected with
      | Some p =>
          if truthy_string selected
          then <["Sec-WebSocket-Protocol"%string := p]> corsHeaders
          else corsHeaders
      | None => corsHeaders
      end in
    (Upgraded {| status := 101; resp_headers := responseHeaders; body := None |}
       {| upstreamUrl := url; protocols := protos; session := Relay.init |},
     []).

(** Whether [await request.text()] rejects. *)
Variable body_unreadable : Request → bool.

(** Whether [new Request(...)] throws for a reason other than a body on a GET
    or HEAD request (a method or a URL it does not accept). *)
Variable request_refused : OutRequest → bool.

(** Whether [new Response(response.body, { status, headers })] throws (a
    status it does not accept). *)
Variable response_refused : NetResponse → bool.

Definition request_constructor_throws (out : OutRequest) : bool :=
  get_or_head_with_body out || request_refused out.

(** Everything in [handleRPC] is inside the [try]: the body is read, the
    outbound request is built, it is fetched, the answer is built; an
    exception at any of these steps is answered by the [catch] with 502.  Only
    a request that was built is handed to [fetch]. *)
Definition handleRPC (request : Request) (env : Env)
    (corsHeaders : gmap string jsstring) : Handled :=
  let proxyError :=
    Plain {| status := 502; resp_headers := corsHeaders;
             body := Some (js "Proxy Error") |} in
  if body_unreadable request then (proxyError, [])
  else
    let out := proxyRequest request env in
    if request_constructor_throws out then (proxyError, [])
    else
      match net out with
      | Some response =>
          if response_refused response then (proxyError, [out])
          else (Plain {| status := net_status response;
                         resp_headers := corsHeaders;
                         body := net_body response |}, [out])
      | None => (proxyError, [out])
      end.

(** [export default { fetch }] *)
Definition fetch (request : Request) (env : Env) : Handled :=
  if jsstring_eqb (pathname request) (js "/helius-webhook")
  then handleWebhookForwarding request env
  else if negb (truthy_string (HELIUS_API_KEY env))
  then (Plain {| status := 500; resp_headers := ∅;
                 body := Some (js "Missing HELIUS_API_KEY") |}, [])
  else
    let corsHeaders := Cors.getCorsHeaders (cors_request request) (cors_env env) in
    if jsstring_eqb (method request) (js "OPTIONS")
    then (Plain {| status := 200; resp_headers := corsHeaders; body := None |}, [])
    else if bool_decide (toLowerCase <$> headers request !! "upgrade"%string
                         = Some (js "websocket"))
    then handleWebSocket request env corsHeaders
    else handleRPC request env corsHeaders.

End Handlers.

(** The first and the last code unit of a string are white space. *)
Definition starts_ws (s : jsstring) : bool :=
  match s with c :: _ => js_whitespace c | [] => false end.
Definition ends_ws (s : jsstring) : bool := starts_ws (rev s).

(** The number of question marks in a string. *)
Definition question_marks (s : jsstring) : nat :=
  length (List.filter (N.eqb 63) s).

(** The headers [handleRPC] removes. *)
Definition client_ip_headers : list string :=
  ["cf-connecting-ip"; "x-forwarded-for"; "true-client-ip"]%string.

(** Sample inputs. *)
Definition net_down : OutRequest → option NetResponse := λ _, None.
Definition net_ok (st : Z) : OutRequest → option NetResponse :=
  λ r, Some {| net_status := st; net_body := out_body r |}.
Definition ws_ok : jsstring → list jsstring → bool := λ _ _, false.
Definition readable : Request → bool := λ _, false.
Definition request_accepted : OutRequest → bool := λ _, false.
Definition response_accepted : NetResponse → bool := λ _, false.
Definition ascii_lower (s : jsstring) : jsstring :=
  map (λ c, if (65 <=? c)%N && (c <=? 90)%N then (c + 32)%N else c) s.
Definition sample_env : Env :=
  {| HELIUS_API_KEY := Some (js "KEY");
     CORS_ALLOW_ORIGIN := Some (js "https://a.example, https://b.example");
     BACKEND_WEBHOOK_URL := js "https://backend.example/hook";
     WEBHOOK_SECRET := Some (js "s3cret") |}.
Definition sample_request : Request :=
  {| method := js "POST"; pathname := js "/"; search := js "?commitment=x";
     headers := <["cf-connecting-ip"%string := js "203.0.113.7"]>
                  (<["origin"%string := js "https://b.example"]>
                     (<["accept"%string := js "*/*"]> ∅));
     text := js "{}" |}.

End Worker.

(** * Properties of [getCorsHeaders] *)

Module CorsFacts.
Import Cors.

Lemma includes_elem_of (arr : list jsstring) (x : jsstring) :
  includes arr x = true ↔ x ∈ arr.
Proof.
  unfold includes. rewrite existsb_exists. split.
  - intros (y & Hin & Heq). unfold jsstring_eqb in Heq.
    apply bool_decide_eq_true in Heq. subst. by apply list_elem_of_In.
  - intros Hin. exists x. split; [by apply list_elem_of_In|].
    unfold jsstring_eqb. by apply bool_decide_eq_true.
Qed.

Lemma allow_origin_always_set (request : Request) (env : Env) :
  is_Some (getCorsHeaders request env !! "Access-Control-Allow-Origin"%string).
Proof.
  unfold getCorsHeaders.
  destruct (header_Origin request); [destruct (origin_allowed _ _)|];
    rewrite lookup_insert_eq; eauto.
Qed.

(** C10. With an allow-list configured, a request whose Origin header is
    absent or is not an entry of the list gets
    [Access-Control-Allow-Origin: *] (the header is not left out); a value
    other than the wildcard is the request's own origin, and then that origin
    is an entry of the comma-separated list (entries are trimmed); a non-empty
    origin that is an entry is echoed back as it is. *)
Theorem cors_allow_origin (request : Request) (env : Env) (allowed : jsstring) :
  CORS_ALLOW_ORIGIN env = Some allowed →
  let entries := map trim (split comma allowed) in
  let result := getCorsHeaders request env !! "Access-Control-Allow-Origin"%string in
  (match header_Origin request with
   | None => True
   | Some origin => origin ∉ entries
   end → result = Some (js "*"))
  ∧ (∀ v, result = Some v → v ≠ js "*" →
          header_Origin request = Some v ∧ v ∈ entries)
  ∧ (∀ origin, header_Origin request = Some origin → origin ∈ entries →
               origin ≠ [] → result = Some origin).
Proof.
  intros Henv entries result. subst result.
  unfold getCorsHeaders, origin_allowed, supportedDomains. rewrite Henv.
  fold entries. destruct (header_Origin request) as [origin|] eqn:Ho.
  - destruct (truthy_string (Some origin) && includes entries origin) eqn:Hc.
    + apply andb_true_iff in Hc as [Ht Hi]. apply includes_elem_of in Hi.
      rewrite lookup_insert_eq. split_and!.
      * intros Hn. done.
      * intros v [= <-] _. done.
      * intros o [= <-] _ _. done.
    + rewrite lookup_insert_eq. split_and!.
      * done.
      * intros v [= <-] Hne. done.
      * intros o [= <-] Hin Hne. exfalso.
        apply andb_false_iff in Hc as [Ht|Hi].
        -- destruct origin; simpl in Ht; congruence.
        -- apply includes_elem_of in Hin. congruence.
  - rewrite lookup_insert_eq. split_and!; [done| |done].
    intros v [= <-] Hne. done.
Qed.

Lemma cors_allow_origin_witness :
  let env := {| CORS_ALLOW_ORIGIN := Some (js "https://a.example, https://b.example") |} in
  getCorsHeaders {| header_Origin := Some (js "https://evil.example") |} env
    !! "Access-Control-Allow-Origin"%string = Some (js "*")
  ∧ getCorsHeaders {| header_Origin := Some (js "https://b.example") |} env
    !! "Access-Control-Allow-Origin"%string = Some (js "https://b.example").
Proof.
  intros env. split.
  - refine (proj1 (cors_allow_origin
      {| header_Origin := Some (js "https://evil.example") |} env _ eq_refl) _).
    simpl. vm_compute. intros H. by apply list_elem_of_In in H; simpl in H; intuition discriminate.
  - refine (proj2 (proj2 (cors_allow_origin
      {| header_Origin := Some (js "https://b.example") |} env _ eq_refl)) _ eq_refl _ _).
    + vm_compute. apply list_elem_of_In. simpl. auto.
    + vm_compute. discriminate.
Defined.

End CorsFacts.

(** * Properties of the relay *)

Module RelayFacts.
Import Relay.
Local Open Scope stmt_scope.

Ltac unfold_stmt :=
  unfold try_close, try_catch, try_catch_return, ifte, andThen, assign, skip,
    send, close in *.

Ltac unfold_handlers :=
  unfold upstream_on_open, server_on_message, upstream_on_message,
    server_on_close, upstream_on_close, server_on_error, upstream_on_error,
    bufferTimeout_fired, keepalive_tick in *.

Ltac simpl_session :=
  cbn [bufferedData bufferTimeout isUpstreamConnected keepaliveTimer
       upstream_readyState server_readyState timeouts intervals next_timer
       calls tornDown set_bufferedData set_bufferTimeout
       set_isUpstreamConnected set_keepaliveTimer set_upstream_readyState
       set_server_readyState set_timeouts set_intervals set_next_timer
       set_calls set_tornDown readyState set_readyState clearKeepalive
       clearBufferTimeout cleanup startKeepalive startBufferTimeout
       fst snd] in *.

(** ** Timers and [cleanup] *)

Lemma member_true (id : nat) (l : list nat) : member id l = true ↔ id ∈ l.
Proof.
  unfold member. rewrite existsb_exists. split.
  - intros (x & Hin & Heq). apply Nat.eqb_eq in Heq. subst.
    by apply list_elem_of_In.
  - intros Hin. exists id. split; [by apply list_elem_of_In | apply Nat.eqb_refl].
Qed.

Lemma remove_timer_singleton (id : nat) : remove_timer id [id] = [].
Proof. unfold remove_timer. simpl. by rewrite Nat.eqb_refl. Qed.

Lemma remove_timer_idem (id : nat) (l : list nat) :
  remove_timer id (remove_timer id l) = remove_timer id l.
Proof.
  unfold remove_timer. induction l as [|x l IH]; simpl; [done|].
  destruct (negb (x =? id)) eqn:E; simpl; rewrite ?E, IH; done.
Qed.

Lemma remove_timer_not_member (id : nat) (l : list nat) :
  member id (remove_timer id l) = false.
Proof.
  unfold remove_timer, member. induction l as [|x l IH]; simpl; [done|].
  destruct (x =? id) eqn:E; simpl; [done|].
  rewrite IH. rewrite Nat.eqb_sym, E. done.
Qed.

Lemma clearKeepalive_idem (s : Session) :
  clearKeepalive (clearKeepalive s) = clearKeepalive s.
Proof. destruct s as [? ? ? [k|] ? ? ? ? ? ? ?]; reflexivity. Qed.

Lemma clearBufferTimeout_idem (s : Session) :
  clearBufferTimeout (clearBufferTimeout s) = clearBufferTimeout s.
Proof. destruct s as [? [b|] ? ? ? ? ? ? ? ? ?]; reflexivity. Qed.

(** C8 (amended). [cleanup] is idempotent: run a second time on the state it
    has produced, it changes nothing (both timer variables are already null,
    the queue is already empty); and the state it produces has an empty queue
    and both timer variables null, with the timers they held no longer
    pending. *)
Theorem cleanup_idempotent (s : Session) :
  cleanup (cleanup s) = cleanup s
  ∧ bufferedData (cleanup s) = []
  ∧ bufferTimeout (cleanup s) = None
  ∧ keepaliveTimer (cleanup s) = None
  ∧ handle_pending (bufferTimeout s) (timeouts (cleanup s)) = false
  ∧ handle_pending (keepaliveTimer s) (intervals (cleanup s)) = false.
Proof.
  destruct s as [q [b|] u [k|] ur sr ts ivs n l t]; cbn;
    split_and!; try reflexivity; apply remove_timer_not_member.
Qed.

(** ** Observations on the log *)

Lemma upstream_received_app (l1 l2 : list Call) :
  upstream_received (l1 ++ l2) = upstream_received l1 ++ upstream_received l2.
Proof. apply omap_app. Qed.

Lemma upstream_received_flushed (q : list Frame) :
  upstream_received (map flushed_ok q) = q.
Proof. induction q as [|d q IH]; [done|]. cbn. f_equal. exact IH. Qed.

#[local] Arguments upstream_received : simpl never.
#[local] Arguments client_frames : simpl never.

(** ** The handlers one by one *)

Lemma dispatch_buffer_timeout (throws : nat → bool) (id : nat) (s : Session) :
  member id (timeouts s) = true →
  dispatch throws (BufferTimeoutFires id) s
  = Some (bufferTimeout_fired throws (set_timeouts (remove_timer id (timeouts s)) s)).
Proof. intros H. simpl. by rewrite H. Qed.

(** C3. When the buffer-deadline timer fires (it is single-shot, so it is no
    longer pending afterwards): if the queue is non-empty and the upstream is
    not ready, the queue is discarded (nothing is sent to the upstream) and
    [server.close(1011, "upstream_connection_timeout")] is called, an exception
    of that call being swallowed; if the queue is empty or the upstream is
    ready, nothing else changes. *)
Theorem buffer_deadline_fires (throws : nat → bool) (id : nat) (s : Session) :
  member id (timeouts s) = true →
  ∃ s', dispatch throws (BufferTimeoutFires id) s = Some (Normal, s')
    ∧ timeouts s' = remove_timer id (timeouts s)
    ∧ (bufferedData s ≠ [] → isUpstreamConnected s = false →
       bufferedData s' = []
       ∧ calls s' = calls s ++
           [Close Server (Some (1011%Z, "upstream_connection_timeout"%string))
              (negb (throws (length (calls s))))]
       ∧ upstream_received (calls s') = upstream_received (calls s))
    ∧ (bufferedData s = [] ∨ isUpstreamConnected s = true →
       s' = set_timeouts (remove_timer id (timeouts s)) s).
Proof.
  intros Hm. rewrite dispatch_buffer_timeout by done.
  unfold_handlers. unfold_stmt.
  destruct s as [q b u k ur sr ts ivs n l t]. cbn.
  destruct q as [|d q]; cbn.
  - eexists. split_and!; [reflexivity|reflexivity|done|done].
  - destruct u; cbn.
    + eexists. split_and!; [reflexivity|reflexivity| |done].
      intros _ [=].
    + destruct (throws (length l)) eqn:Ht; cbn;
        (eexists; split_and!; [reflexivity|reflexivity| |]);
        try (intros [?|?]; discriminate);
        intros _ _; (split_and!; [done|done|]);
        simpl_session; rewrite upstream_received_app; cbn; by rewrite app_nil_r.
Qed.

Lemma buffer_deadline_fires_witness :
  ∃ s s', run never_throws [ServerMessage frameA] init = Some s
    ∧ dispatch never_throws (BufferTimeoutFires 1) s = Some (Normal, s')
    ∧ bufferedData s' = []
    ∧ calls s' = [Close Server (Some (1011%Z, "upstream_connection_timeout"%string)) true].
Proof.
  eexists. 
  destruct (buffer_deadline_fires never_throws 1
    (mkSession [frameA] (Some 1) false None CONNECTING OPEN [1] [] 2 [] false)
    eq_refl) as (s' & Hd & _ & Hfire & _).
  exists s'. split; [reflexivity|]. split; [exact Hd|].
  destruct Hfire as (Hq & Hc & _); [discriminate|reflexivity|].
  split; [exact Hq | exact Hc].
Defined.

(** C5. The four terminal listeners.  Client close: [cleanup], then
    [upstream.close()].  Client error: [cleanup], then
    [upstream.close(1011, "client_ws_error")].  Upstream close: the ready flag
    is reset, [cleanup], then [server.close()].  Upstream error: the ready flag
    is reset, [cleanup], then [server.close(1011, "upstream_ws_error")].  Each
    listener completes normally whether or not the close call throws. *)
Theorem terminal_events_close_other_side (throws : nat → bool) (s : Session) :
  let returned := negb (throws (length (calls s))) in
  (∃ r, server_on_close throws s = (Normal, r)
     ∧ teardown_then_close s r Upstream None returned
     ∧ isUpstreamConnected r = isUpstreamConnected s)
  ∧ (∃ r, server_on_error throws s = (Normal, r)
       ∧ teardown_then_close s r Upstream
           (Some (1011%Z, "client_ws_error"%string)) returned
       ∧ isUpstreamConnected r = isUpstreamConnected s)
  ∧ (∃ r, upstream_on_close throws s = (Normal, r)
       ∧ teardown_then_close s r Server None returned
       ∧ isUpstreamConnected r = false)
  ∧ (∃ r, upstream_on_error throws s = (Normal, r)
       ∧ teardown_then_close s r Server
           (Some (1011%Z, "upstream_ws_error"%string)) returned
       ∧ isUpstreamConnected r = false).
Proof.
  unfold_handlers. unfold_stmt. unfold teardown_then_close, handle_pending.
  destruct s as [q [b|] u [k|] ur sr ts ivs n l t]; simpl_session;
    destruct (throws (length l)); cbn [negb]; simpl_session;
    split_and!; (eexists; split; [reflexivity|]); simpl_session;
    split_and!; try reflexivity; apply remove_timer_not_member.
Qed.

(** C9. A frame from the upstream while the client socket is not open is
    dropped: the listener changes nothing (no buffering, no close, no
    [cleanup]).  With the client socket open the frame is sent on; only a throw
    of that send runs [cleanup] and closes the upstream with
    [1011, "client_ws_error"].  In the other direction a frame that cannot be
    forwarded is appended to the queue while the queue is below capacity. *)
Theorem upstream_frame_dropped_when_client_not_open
    (throws : nat → bool) (d : Frame) (s : Session) :
  (server_readyState s ≠ OPEN → upstream_on_message throws d s = (Normal, s))
  ∧ (server_readyState s = OPEN → throws (length (calls s)) = false →
     upstream_on_message throws d s
     = (Normal, set_calls (calls s ++ [Send Server Downstream d true]) s))
  ∧ (server_readyState s = OPEN → throws (length (calls s)) = true →
     ∃ s', upstream_on_message throws d s = (Normal, s')
       ∧ tornDown s' = true ∧ bufferedData s' = []
       ∧ calls s' = calls s ++
           [Send Server Downstream d false;
            Close Upstream (Some (1011%Z, "client_ws_error"%string))
              (negb (throws (S (length (calls s)))))])
  ∧ (isUpstreamConnected s && is_open (upstream_readyState s) = false →
     length (bufferedData s) < MAX_BUFFER_SIZE →
     ∃ s', server_on_message throws d s = (Normal, s')
       ∧ bufferedData s' = bufferedData s ++ [d]
       ∧ calls s' = calls s ∧ tornDown s' = tornDown s).
Proof.
  unfold_handlers. unfold_stmt.
  destruct s as [q [b|] u [k|] ur sr ts ivs n l t]; split_and!.
  all: try (intros Hsr; destruct sr; cbn in *; congruence).
  all: try (intros Hsr Ht; cbn in *; rewrite Hsr, Ht; reflexivity).
  all: try (intros Hc Hlen; simpl_session; rewrite Hc;
            apply Nat.leb_gt in Hlen; rewrite Hlen;
            destruct (length q =? 0); cbn; eexists; split_and!; reflexivity).
  all: intros Hsr Ht; cbn in *; rewrite Hsr, Ht; cbn;
    rewrite length_app; cbn; rewrite Nat.add_1_r;
    destruct (throws (S (length l))); cbn;
      (eexists; split_and!; [reflexivity|reflexivity|reflexivity|]);
      cbn; by rewrite <- app_assoc.
Qed.

Lemma upstream_frame_dropped_witness :
  upstream_on_message never_throws frameA (set_server_readyState CLOSING init)
  = (Normal, set_server_readyState CLOSING init)
  ∧ upstream_on_message never_throws frameA init
    = (Normal, set_calls [Send Server Downstream frameA true] init)
  ∧ (∃ s', upstream_on_message (throws_at 0) frameA init = (Normal, s')
       ∧ tornDown s' = true)
  ∧ (∃ s', server_on_message never_throws frameA init = (Normal, s')
       ∧ bufferedData s' = [frameA]).
Proof.
  split_and!.
  - apply (proj1 (upstream_frame_dropped_when_client_not_open
                    never_throws frameA (set_server_readyState CLOSING init))).
    discriminate.
  - apply (proj1 (proj2 (upstream_frame_dropped_when_client_not_open
                           never_throws frameA init))); reflexivity.
  - destruct (proj1 (proj2 (proj2 (upstream_frame_dropped_when_client_not_open
                (throws_at 0) frameA init))) eq_refl eq_refl)
      as (s' & H1 & H2 & _).
    exists s'. split; [exact H1 | exact H2].
  - destruct (proj2 (proj2 (proj2 (upstream_frame_dropped_when_client_not_open
                never_throws frameA init))) eq_refl) as (s' & H1 & H2 & _).
    + unfold MAX_BUFFER_SIZE. simpl. lia.
    + exists s'. split; [exact H1 | exact H2].
Defined.

(** ** The flush loop *)

Lemma set_calls_set_calls (l1 l2 : list Call) (s : Session) :
  set_calls l2 (set_calls l1 s) = set_calls l2 s.
Proof. by destruct s. Qed.

Lemma set_calls_same (s : Session) : set_calls (calls s) s = s.
Proof. by destruct s. Qed.

Lemma first_failure_Some (throws : nat → bool) (n len k : nat) :
  first_failure throws n len = Some k →
  k < len ∧ throws (n + k) = true ∧ ∀ i, i < k → throws (n + i) = false.
Proof.
  revert n k. induction len as [|len IH]; intros n k; simpl; [done|].
  destruct (throws n) eqn:Hn.
  - intros [= <-]. rewrite Nat.add_0_r. split_and!; [lia|done|lia].
  - destruct (first_failure throws (S n) len) as [k'|] eqn:Hf; [|done].
    intros [= <-]. destruct (IH _ _ Hf) as (Hlt & Hk & Hbefore).
    split_and!; [lia| by rewrite Nat.add_succ_r |].
    intros [|i] Hi; [by rewrite Nat.add_0_r|].
    rewrite Nat.add_succ_r. apply (Hbefore i). lia.
Qed.

Lemma first_failure_None (throws : nat → bool) (n len : nat) :
  first_failure throws n len = None ↔ ∀ i, i < len → throws (n + i) = false.
Proof.
  revert n. induction len as [|len IH]; intros n; simpl.
  - split; [intros _ i Hi; lia | done].
  - destruct (throws n) eqn:Hn.
    + split; [done|]. intros H. specialize (H 0). rewrite Nat.add_0_r in H.
      rewrite H in Hn; [done|lia].
    + destruct (first_failure throws (S n) len) as [k'|] eqn:Hf; simpl.
      * split; [done|]. intros H. apply first_failure_Some in Hf as (Hlt & Hk & _).
        specialize (H (S k')). rewrite Nat.add_succ_r in H. simpl in Hk.
        rewrite H in Hk; [done|lia].
      * split; [|done]. intros _ [|i] Hi; [by rewrite Nat.add_0_r|].
        rewrite Nat.add_succ_r. apply (proj1 (IH (S n)) Hf i). lia.
Qed.

Lemma for_of_flush (throws : nat → bool) (q : list Frame) (s : Session) :
  for_of q (send throws Upstream Flushed) s =
  match first_failure throws (length (calls s)) (length q) with
  | None => (Normal, set_calls (calls s ++ map flushed_ok q) s)
  | Some k =>
      (Thrown, set_calls (calls s ++ map flushed_ok (take k q)
                            ++ map flushed_failed (take 1 (drop k q))) s)
  end.
Proof.
  revert s. induction q as [|d q IH]; intros s.
  - simpl. unfold skip. by rewrite app_nil_r, set_calls_same.
  - cbn [for_of length first_failure]. unfold andThen at 1. unfold send at 1.
    destruct (throws (length (calls s))) eqn:Ht; [reflexivity|].
    rewrite IH. destruct s as [q0 b u k ur sr ts ivs n l t]. simpl_session.
    rewrite length_app. cbn [length]. rewrite Nat.add_1_r.
    destruct (first_failure throws (S (length l)) (length q)) as [j|];
      cbn [fmap option_fmap option_map take drop map];
      rewrite <- app_assoc; reflexivity.
Qed.

Lemma upstream_on_open_eq (throws : nat → bool) (s : Session) :
  upstream_on_open throws s =
  let s1 := clearBufferTimeout (set_isUpstreamConnected true s) in
  let q := bufferedData s in
  match first_failure throws (length (calls s)) (length q) with
  | None =>
      (Normal,
       startKeepalive
         (set_bufferedData [] (set_calls (calls s ++ map flushed_ok q) s1)))
  | Some k =>
      (Normal,
       (close throws Server (Some (1011%Z, "upstream_ws_error"%string))
          (cleanup
             (set_calls (calls s ++ map flushed_ok (take k q)
                           ++ map flushed_failed (take 1 (drop k q))) s1))).2)
  end.
Proof.
  unfold upstream_on_open.
  unfold try_close, try_catch, try_catch_return, ifte, andThen, assign, skip.
  destruct s as [q [b|] u [kk|] ur sr ts ivs n l t]; simpl_session.
  all: destruct q as [|d0 q0]; simpl_session.
  all: try (cbn; by rewrite app_nil_r).
  all: cbn [length Nat.ltb Nat.leb]; rewrite for_of_flush; simpl_session;
       cbn [length].
  all: destruct (first_failure throws (length l) (S (length q0))) as [k|];
       [|reflexivity].
  all: unfold close; simpl_session;
       match goal with
       | |- context [if ?f ?n then _ else _] => destruct (f n)
       end; reflexivity.
Qed.

(** C4. The listener of the upstream [open] event sets the ready flag and
    cancels the buffer-deadline timer.  It then sends the queued frames in
    queue order.  If every send returns, the queue is cleared and the
    keepalive interval is started (also when the queue was empty).  If the
    send of the frame at index [k] throws, the frames before it have been
    sent, the rest is not attempted, [cleanup] empties the queue,
    [server.close(1011, "upstream_ws_error")] is called, and no keepalive
    interval is started.  The listener completes normally in both cases. *)
Theorem upstream_open_flushes_queue (throws : nat → bool) (s : Session) :
  ∃ s', upstream_on_open throws s = (Normal, s')
    ∧ isUpstreamConnected s' = true
    ∧ bufferTimeout s' = None
    ∧ handle_pending (bufferTimeout s) (timeouts s') = false
    ∧ bufferedData s' = []
    ∧ match first_failure throws (length (calls s)) (length (bufferedData s)) with
      | None =>
          calls s' = calls s ++ map flushed_ok (bufferedData s)
          ∧ keepaliveTimer s' = Some (next_timer s)
          ∧ intervals s' = intervals s ++ [next_timer s]
          ∧ tornDown s' = tornDown s
      | Some k =>
          ∃ d, bufferedData s !! k = Some d
            ∧ calls s' = calls s ++ map flushed_ok (take k (bufferedData s))
                ++ [Send Upstream Flushed d false;
                    Close Server (Some (1011%Z, "upstream_ws_error"%string))
                      (negb (throws (S (length (calls s) + k))))]
            ∧ keepaliveTimer s' = None
            ∧ intervals s' = intervals (clearKeepalive s)
            ∧ next_timer s' = next_timer s
            ∧ tornDown s' = true
      end.
Proof.
  unfold upstream_on_open.
  unfold try_close, try_catch, try_catch_return, ifte, andThen, assign, skip, close.
  destruct s as [q [b|] u [kk|] ur sr ts ivs n l t]; simpl_session.
  all: destruct q as [|d0 q0]; simpl_session.
  all: try (cbn; (eexists; split; [reflexivity|]); simpl_session; split_and!;
            try reflexivity; try apply remove_timer_not_member; try done;
            by rewrite app_nil_r).
  all: cbn [length Nat.ltb Nat.leb]; rewrite for_of_flush; simpl_session;
       cbn [length].
  all: destruct (first_failure throws (length l) (S (length q0)))
         as [k|] eqn:Hf;
       [|(eexists; split; [reflexivity|]); simpl_session; split_and!;
         try reflexivity; try apply remove_timer_not_member; done].
  all: apply first_failure_Some in Hf as (Hlt & Hk & _).
  all: destruct (lookup_lt_is_Some_2 (d0 :: q0) k Hlt) as [d Hd].
  all: assert (Htk : take 1 (drop k (d0 :: q0)) = [d])
         by (rewrite <- (take_drop_middle _ _ _ Hd) at 1;
             rewrite drop_app_length'; [done|]; rewrite length_take;
             cbn [length]; lia).
  all: assert (Hlen : length (l ++ map flushed_ok (take k (d0 :: q0))
                                ++ [Send Upstream Flushed d false])
                      = S (length l + k))
         by (rewrite !length_app, length_map, length_take; cbn [length];
             cbn [length] in Hlt; lia).
  all: rewrite Htk; cbn [map]; unfold flushed_failed; simpl_session;
       rewrite Hlen.
  all: destruct (throws (S (length l + k))); cbn [negb]; simpl_session.
  all: (eexists; split; [reflexivity|]); simpl_session; split_and!;
         try reflexivity; try apply remove_timer_not_member; try done.
  all: exists d; split_and!; [exact Hd| |reflexivity..].
  all: rewrite <- !app_assoc; reflexivity.
Qed.

(** ** One event at a time *)

Lemma timer_var_ok_clear (id : nat) (pending : list nat) :
  timer_var_ok (Some id) pending → remove_timer id pending = [].
Proof.
  intros [->|(id' & [= <-] & ->)]; [done|apply remove_timer_singleton].
Qed.

Lemma timer_var_ok_none (pending : list nat) :
  timer_var_ok None pending → pending = [].
Proof. by intros [->|(id' & [=] & _)]. Qed.

Lemma timer_var_ok_fire (var : option nat) (id : nat) (pending : list nat) :
  timer_var_ok var pending → member id pending = true →
  remove_timer id pending = [] ∧ pending = [id].
Proof.
  intros [->|(id' & _ & ->)] Hm; [done|].
  apply member_true in Hm. apply list_elem_of_singleton in Hm as ->.
  split; [apply remove_timer_singleton|done].
Qed.

Ltac timers_nf :=
  repeat match goal with
  | H : timer_var_ok (Some ?id) ?p |- _ =>
      let E := fresh "Hclear" in
      pose proof (timer_var_ok_clear _ _ H) as E; revert H
  | H : timer_var_ok None ?p |- _ =>
      apply timer_var_ok_none in H; subst p
  end; intros.

Ltac split_if H :=
  repeat match type of H with
  | context [if ?c then _ else _] => destruct c eqn:?; simpl_session
  end.


Lemma upstream_received_snoc (l : list Call) (x : Call) :
  upstream_received (l ++ [x]) = upstream_received l ++ option_list (relayed_frame x).
Proof.
  rewrite upstream_received_app. unfold upstream_received. simpl.
  by destruct (relayed_frame x).
Qed.

Ltac bools_nf :=
  repeat match goal with
  | H : _ && _ = true |- _ => apply andb_true_iff in H as [? ?]
  | H : negb _ = true |- _ => apply negb_true_iff in H
  | H : negb _ = false |- _ => apply negb_false_iff in H
  | H : (_ <=? _) = false |- _ => apply Nat.leb_gt in H
  | H : (_ <=? _) = true |- _ => apply Nat.leb_le in H
  | H : (_ <? _) = false |- _ => apply Nat.ltb_ge in H
  | H : (_ <? _) = true |- _ => apply Nat.ltb_lt in H
  | H : (_ =? _) = true |- _ => apply Nat.eqb_eq in H
  | H : (_ =? _) = false |- _ => apply Nat.eqb_neq in H
  | H : length ?q = 0 |- _ => apply nil_length_inv in H; subst q
  | H : length ?q ≠ 0 |- _ =>
      assert (q ≠ []) by (intros ->; apply H; reflexivity); clear H
  end.

Ltac list_nf :=
  rewrite ?upstream_received_snoc, ?List.filter_app, ?length_app, <- ?app_assoc;
  cbn [relayed_frame option_list List.filter is_upstream_send
       is_keepalive_send client_frame app length];
  rewrite ?app_nil_r.

Ltac clears_nf :=
  repeat match goal with
  | H : remove_timer _ _ = [] |- _ => rewrite !H
  end.

Ltac fin :=
  intros; subst; clears_nf; list_nf;
  first
    [ done
    | congruence
    | left; reflexivity
    | right; eexists; split; reflexivity
    | unfold MAX_BUFFER_SIZE in *; cbn [length] in *; lia
    | apply sublist_nil_l
    | match goal with |- ?q ++ [_] ≠ [] => destruct q; discriminate end
    | match goal with
      | H : ?a = true → ?b = OPEN → ?q = [] |- _ =>
          rewrite (H eq_refl eq_refl) in *; done
      end
    | intuition (first [congruence | discriminate | done])
    ].

Ltac simpl_goal :=
  cbn [bufferedData bufferTimeout isUpstreamConnected keepaliveTimer
       upstream_readyState server_readyState timeouts intervals next_timer
       calls tornDown set_bufferedData set_bufferTimeout
       set_isUpstreamConnected set_keepaliveTimer set_upstream_readyState
       set_server_readyState set_timeouts set_intervals set_next_timer
       set_calls set_tornDown readyState set_readyState clearKeepalive
       clearBufferTimeout cleanup startKeepalive startBufferTimeout
       fst snd].

Ltac solve_step :=
  unfold step_facts; simpl_goal; split; [reflexivity|]; split;
  [ constructor; simpl_goal; fin
  | split;
    [ list_nf; eexists; split;
      [ first [reflexivity | symmetry; apply app_nil_r] | fin ]
    | split; fin ] ].


Ltac step_cases Hd :=
  unfold_handlers; unfold_stmt; simpl_session;
  cbn [andb is_open negb] in Hd;
  split_if Hd; inversion Hd; subst; clear Hd; bools_nf.

Lemma facts_server_message throws d s c s' :
  Inv s → dispatch throws (ServerMessage d) s = Some (c, s') →
  step_facts (ServerMessage d) s c s'.
Proof.
  intros [H1 H2 H3 H4 H5 H6 H7 H8] Hd.
  destruct s as [q [b|] u [k|] ur sr ts ivs n l t]; simpl_session.
  all: timers_nf.
  all: cbn [dispatch] in Hd; simpl_session.
  all: destruct (receiving sr); [|discriminate].
  all: destruct u, ur; cbn [andb is_open] in Hd.
  all: step_cases Hd.
  all: solve_step.
Qed.


Lemma facts_upstream_message throws d s c s' :
  Inv s → dispatch throws (UpstreamMessage d) s = Some (c, s') →
  step_facts (UpstreamMessage d) s c s'.
Proof.
  intros [H1 H2 H3 H4 H5 H6 H7 H8] Hd.
  destruct s as [q [b|] u [k|] ur sr ts ivs n l t]; simpl_session.
  all: timers_nf.
  all: cbn [dispatch] in Hd; simpl_session.
  all: destruct ur; cbn [receiving] in Hd; try discriminate Hd.
  all: step_cases Hd.
  all: solve_step.
Qed.

Lemma facts_close_error throws e s c s' :
  e = ServerClose ∨ e = UpstreamClose ∨ e = ServerError ∨ e = UpstreamError →
  Inv s → dispatch throws e s = Some (c, s') → step_facts e s c s'.
Proof.
  intros He [H1 H2 H3 H4 H5 H6 H7 H8] Hd.
  destruct s as [q [b|] u [k|] ur sr ts ivs n l t]; simpl_session.
  all: timers_nf.
  all: destruct He as [->|[->|[->| ->]]]; cbn [dispatch] in Hd; simpl_session.
  all: destruct ur, sr; cbn [not_closed] in Hd; try discriminate Hd.
  all: step_cases Hd.
  all: solve_step.
Qed.

Lemma facts_timers throws e s c s' :
  (∃ id, e = BufferTimeoutFires id ∨ e = KeepaliveTick id) →
  Inv s → dispatch throws e s = Some (c, s') → step_facts e s c s'.
Proof.
  intros [id He] [H1 H2 H3 H4 H5 H6 H7 H8] Hd.
  destruct s as [q b u k ur sr ts ivs n l t]; simpl_session.
  destruct He as [-> | ->]; cbn [dispatch] in Hd; simpl_session.
  - destruct (member id ts) eqn:Hm; [|discriminate].
    destruct (timer_var_ok_fire _ _ _ H1 Hm) as [Hr ->]. rewrite Hr in Hd.
    destruct u, q as [|d0 q0]; step_cases Hd; solve_step.
  - destruct (member id ivs) eqn:Hm; [|discriminate].
    destruct (timer_var_ok_fire _ _ _ H2 Hm) as [Hr ->].
    destruct H2 as [[=]|(id' & -> & [= <-])].
    destruct ur; step_cases Hd; rewrite ?Nat.eqb_refl; cbn [negb List.filter];
      solve_step.
Qed.

Lemma facts_closing throws e s c s' :
  e = UpstreamClosing ∨ e = ServerClosing →
  Inv s → dispatch throws e s = Some (c, s') → step_facts e s c s'.
Proof.
  intros He [H1 H2 H3 H4 H5 H6 H7 H8] Hd.
  destruct s as [q b u k ur sr ts ivs n l t]; simpl_session.
  destruct He as [-> | ->]; cbn [dispatch] in Hd; simpl_session.
  all: destruct ur, sr; try discriminate Hd.
  all: inversion Hd; subst; clear Hd.
  all: solve_step.
Qed.

Lemma upstream_received_failed (q : list Frame) :
  upstream_received (map flushed_failed q) = [].
Proof. by induction q. Qed.

Lemma facts_upstream_open throws s c s' :
  Inv s → dispatch throws UpstreamOpen s = Some (c, s') →
  step_facts UpstreamOpen s c s'.
Proof.
  intros [H1 H2 H3 H4 H5 H6 H7 H8] Hd.
  cbn [dispatch] in Hd.
  destruct (upstream_readyState s) eqn:Hur; try discriminate Hd.
  destruct (H3 eq_refl) as (Hu & Hiv & Hsends).
  rewrite upstream_on_open_eq in Hd. cbv zeta in Hd.
  destruct s as [q [b|] u [k|] ur sr ts ivs n l t]; simpl_session; subst.
  all: timers_nf.
  all: try (destruct H2 as [[=]|(id' & _ & [=])]).
  all: destruct (first_failure throws (length l) (length q)) as [j|] eqn:Hf.
  all: unfold close in Hd; simpl_session.
  all: split_if Hd; inversion Hd; subst; clear Hd.
  all: unfold step_facts; simpl_goal; split; [reflexivity|]; split;
       [constructor; simpl_goal; fin|].
  all: split; [|split; [done | intros Hne; done]].
  all: rewrite ?upstream_received_snoc, !upstream_received_app,
         ?upstream_received_flushed, ?upstream_received_failed;
       cbn [relayed_frame option_list]; rewrite ?app_nil_r;
       eexists; (split; [reflexivity|]); rewrite !app_nil_r;
       first [reflexivity | apply sublist_take].
Qed.

Lemma dispatch_facts throws e s c s' :
  Inv s → dispatch throws e s = Some (c, s') → step_facts e s c s'.
Proof.
  destruct e.
  - apply facts_upstream_open.
  - apply facts_server_message.
  - apply facts_upstream_message.
  - apply facts_close_error; auto.
  - apply facts_close_error; auto.
  - apply facts_close_error; auto.
  - apply facts_close_error; auto.
  - apply facts_timers; eauto.
  - apply facts_timers; eauto.
  - apply facts_closing; auto.
  - apply facts_closing; auto.
Qed.

(** ** Whole sessions *)

Lemma init_inv : Inv init.
Proof.
  constructor; simpl; try done; try (by left).
  unfold MAX_BUFFER_SIZE. lia.
Qed.

Lemma handlers_complete (throws : nat → bool) (e : Event) (s : Session)
    (c : Completion) (s' : Session) :
  Inv s → dispatch throws e s = Some (c, s') → c = Normal.
Proof. intros HI Hd. apply (dispatch_facts _ _ _ _ _ HI Hd). Qed.

Lemma run_inv (throws : nat → bool) (evs : list Event) (s s' : Session) :
  Inv s → run throws evs s = Some s' → Inv s'.
Proof.
  revert s. induction evs as [|e evs IH]; intros s HI Hr; simpl in Hr.
  - by inversion Hr; subst.
  - destruct (dispatch throws e s) as [[c s1]|] eqn:Hd; [|done].
    apply (IH s1); [|done]. apply (dispatch_facts _ _ _ _ _ HI Hd).
Qed.

Lemma run_order (throws : nat → bool) (evs : list Event) (s s' : Session)
    (fs : list Frame) :
  Inv s →
  sublist (upstream_received (calls s) ++ bufferedData s) fs →
  run throws evs s = Some s' →
  sublist (upstream_received (calls s') ++ bufferedData s')
          (fs ++ client_frames evs).
Proof.
  revert s fs. induction evs as [|e evs IH]; intros s fs HI Hs Hr; simpl in Hr.
  - inversion Hr; subst. unfold client_frames. simpl. by rewrite app_nil_r.
  - destruct (dispatch throws e s) as [[c s1]|] eqn:Hd; [|done].
    destruct (dispatch_facts _ _ _ _ _ HI Hd)
      as (_ & HI1 & (sent & Hrecv & Hsub) & _).
    replace (client_frames (e :: evs))
      with (option_list (client_frame e) ++ client_frames evs)
      by (unfold client_frames; simpl; by destruct (client_frame e)).
    rewrite app_assoc. apply (IH s1); [done| |done].
    rewrite Hrecv, <- app_assoc.
    transitivity (upstream_received (calls s) ++ bufferedData s
                    ++ option_list (client_frame e)).
    + apply sublist_app; [done|exact Hsub].
    + rewrite app_assoc. apply sublist_app; [exact Hs|done].
Qed.

Lemma run_before_open (throws : nat → bool) (evs : list Event) (s s' : Session) :
  Inv s → UpstreamOpen ∉ evs →
  isUpstreamConnected s = false → intervals s = [] →
  run throws evs s = Some s' →
  isUpstreamConnected s' = false ∧ intervals s' = []
  ∧ List.filter is_upstream_send (calls s')
    = List.filter is_upstream_send (calls s).
Proof.
  revert s. induction evs as [|e evs IH]; intros s HI Hno Hu Hiv Hr; simpl in Hr.
  - by inversion Hr; subst.
  - destruct (dispatch throws e s) as [[c s1]|] eqn:Hd; [|done].
    apply not_elem_of_cons in Hno as [Hne Hno].
    destruct (dispatch_facts _ _ _ _ _ HI Hd) as (_ & HI1 & _ & Hb & _).
    destruct Hb as (Hu1 & Hiv1 & Hs1); [done..|].
    destruct (IH s1 HI1 Hno Hu1 Hiv1 Hr) as (? & ? & Hs2).
    split_and!; [done|done|]. by rewrite Hs2.
Qed.

Lemma run_disarmed (throws : nat → bool) (evs : list Event) (s s' : Session) :
  Inv s → upstream_readyState s ≠ CONNECTING → intervals s = [] →
  run throws evs s = Some s' →
  upstream_readyState s' ≠ CONNECTING ∧ intervals s' = []
  ∧ List.filter is_keepalive_send (calls s')
    = List.filter is_keepalive_send (calls s).
Proof.
  revert s. induction evs as [|e evs IH]; intros s HI Hur Hiv Hr; simpl in Hr.
  - by inversion Hr; subst.
  - destruct (dispatch throws e s) as [[c s1]|] eqn:Hd; [|done].
    destruct (dispatch_facts _ _ _ _ _ HI Hd) as (_ & HI1 & _ & _ & Hk).
    destruct Hk as (Hur1 & Hiv1 & Hs1); [done..|].
    destruct (IH s1 HI1 Hur1 Hiv1 Hr) as (? & ? & Hs2).
    split_and!; [done|done|]. by rewrite Hs2.
Qed.

Lemma no_sends_nothing_received (l : list Call) :
  List.filter is_upstream_send l = [] → upstream_received l = [].
Proof.
  induction l as [|x l IH]; [done|]. simpl.
  destruct x as [[|] o d r|c a r]; simpl; try discriminate;
    intros H; unfold upstream_received in *; simpl; by apply IH.
Qed.

(** Live forwarding: with the ready flag set and the upstream open, each
    client frame is sent at once, as long as no send throws. *)
Lemma run_live (throws : nat → bool) (post : list Frame) (s : Session) :
  isUpstreamConnected s = true → upstream_readyState s = OPEN →
  receiving (server_readyState s) = true →
  (∀ n, length (calls s) ≤ n → throws n = false) →
  ∃ s', run throws (map ServerMessage post) s = Some s'
    ∧ upstream_received (calls s') = upstream_received (calls s) ++ post
    ∧ bufferedData s' = bufferedData s.
Proof.
  revert s. induction post as [|d post IH]; intros s Hu Hur Hsr Hth.
  - exists s. simpl. by rewrite app_nil_r.
  - cbn [map run dispatch]. rewrite Hsr.
    unfold server_on_message, ifte, try_catch, send. rewrite Hu, Hur.
    cbn [andb is_open]. rewrite (Hth _ (le_n _)).
    destruct (IH (set_calls (calls s ++ [Send Upstream Live d true]) s))
      as (s' & Hr & Hrecv & Hq).
    + by destruct s.
    + by destruct s.
    + by destruct s.
    + intros n Hn. apply Hth. destruct s; simpl_session.
      rewrite length_app in Hn. lia.
    + exists s'. split; [exact Hr|]. split.
      * rewrite Hrecv. destruct s; simpl_session.
        rewrite upstream_received_snoc. cbn [relayed_frame option_list].
        by rewrite <- app_assoc.
      * rewrite Hq. by destruct s.
Qed.

(** ** Ordering of client frames *)

(** C1. In every session the client frames received by the upstream, followed
    by the frames still queued, are taken in order from the frames the client
    sent: nothing is reordered, and no delivered frame comes after a frame that
    is still queued.  The message listener forwards live only with the ready
    flag set and the upstream open, and between two listeners that state
    always has an empty queue.  While the upstream is connecting nothing has
    been delivered; when it then opens and no send throws, the upstream
    receives the queued frames in arrival order and after them the frames the
    client sends from then on. *)
Theorem client_frames_reach_upstream_in_order
    (throws : nat → bool) (evs : list Event) (s : Session) :
  run throws evs init = Some s →
  sublist (upstream_received (calls s) ++ bufferedData s) (client_frames evs)
  ∧ (isUpstreamConnected s = true → upstream_readyState s = OPEN →
     bufferedData s = [])
  ∧ (upstream_readyState s = CONNECTING →
     upstream_received (calls s) = []
     ∧ ∀ post,
         receiving (server_readyState s) = true →
         (∀ n, length (calls s) ≤ n → throws n = false) →
         ∃ s', run throws (UpstreamOpen :: map ServerMessage post) s = Some s'
           ∧ upstream_received (calls s') = bufferedData s ++ post).
Proof.
  intros Hr. pose proof (run_inv _ _ _ _ init_inv Hr) as HI.
  split_and!.
  - apply (run_order throws evs init s [] init_inv); [|done].
    apply sublist_nil_l.
  - apply HI.
  - intros Hur. destruct (inv_connecting _ HI Hur) as (Hu & Hiv & Hsends).
    pose proof (no_sends_nothing_received _ Hsends) as Hnone.
    split; [done|]. intros post Hsr Hth.
    cbn [run dispatch]. rewrite Hur, upstream_on_open_eq. cbv zeta.
    assert (Hff : first_failure throws
                    (length (calls (set_upstream_readyState OPEN s)))
                    (length (bufferedData (set_upstream_readyState OPEN s)))
                  = None).
    { apply first_failure_None. intros i Hi. apply Hth.
      destruct s; simpl_session. lia. }
    rewrite Hff.
    match goal with |- context [run throws _ ?s1] => set (s1' := s1) end.
    destruct (run_live throws post s1') as (s' & Hrun & Hrecv & _).
    + subst s1'. by destruct s as [q [b|] u k ur sr ts ivs n l t].
    + subst s1'.
      by destruct s as [q [b|] u k ur sr ts ivs n l t]; simpl in Hur; subst.
    + subst s1'.
      by destruct s as [q [b|] u k ur sr ts ivs n l t].
    + intros n Hn. apply Hth. subst s1'.
      destruct s as [q [b|] u k ur sr ts ivs n0 l t]; simpl_session;
        rewrite length_app in Hn; lia.
    + exists s'. split; [exact Hrun|]. rewrite Hrecv. subst s1'.
      destruct s as [q [b|] u k ur sr ts ivs n0 l t]; simpl_session;
        simpl_session; rewrite upstream_received_app,
          upstream_received_flushed; simpl in Hnone; by rewrite Hnone.
Qed.

Lemma client_frames_reach_upstream_in_order_witness :
  ∃ s, run never_throws [ServerMessage frameA; ServerMessage frameB] init = Some s
    ∧ sublist (upstream_received (calls s) ++ bufferedData s) [frameA; frameB]
    ∧ ∃ s', run never_throws [UpstreamOpen; ServerMessage frameA] s = Some s'
        ∧ upstream_received (calls s') = [frameA; frameB; frameA].
Proof.
  eexists. split; [reflexivity|].
  destruct (client_frames_reach_upstream_in_order never_throws
              [ServerMessage frameA; ServerMessage frameB] _ eq_refl)
    as (Hsub & _ & Hopen).
  split; [exact Hsub|].
  destruct (Hopen eq_refl) as (_ & Hflush).
  destruct (Hflush [frameA] eq_refl (λ _ _, eq_refl)) as (s' & Hrun & Hrecv).
  exists s'. split; [exact Hrun | exact Hrecv].
Defined.

(** ** Overflow *)

(** C2 (amended). A client frame that arrives while the upstream is not ready
    or not open, with the queue at capacity, aborts the session: [cleanup]
    runs, so the queue is emptied, and [server.close(1011, "buffer_overflow")]
    is called, with the same code 1011 as every other abort.  Nothing is sent
    to the upstream, and the resulting state does not depend on the frame. *)
Theorem buffer_overflow_aborts (throws : nat → bool) (d : Frame) (s : Session) :
  isUpstreamConnected s && is_open (upstream_readyState s) = false →
  MAX_BUFFER_SIZE ≤ length (bufferedData s) →
  ∃ s', server_on_message throws d s = (Normal, s')
    ∧ calls s' = calls s ++
        [Close Server (Some (1011%Z, "buffer_overflow"%string))
           (negb (throws (length (calls s))))]
    ∧ bufferedData s' = []
    ∧ tornDown s' = true
    ∧ upstream_received (calls s') = upstream_received (calls s)
    ∧ ∀ d', server_on_message throws d' s = (Normal, s').
Proof.
  intros Hc Hlen. apply Nat.leb_le in Hlen.
  unfold server_on_message, ifte, try_close, try_catch, andThen, assign, skip,
    close.
  rewrite Hc, Hlen.
  destruct s as [q [b|] u [k|] ur sr ts ivs n l t]; simpl_session;
    destruct (throws (length l)); cbn [negb]; simpl_session;
    (eexists; split; [reflexivity|]); simpl_session; split_and!;
    try reflexivity;
    rewrite upstream_received_snoc; cbn [relayed_frame option_list];
    by rewrite app_nil_r.
Qed.

Lemma buffer_overflow_aborts_witness :
  ∃ s s', run never_throws (burst 10) init = Some s
    ∧ server_on_message never_throws frameB s = (Normal, s')
    ∧ calls s' = [Close Server (Some (1011%Z, "buffer_overflow"%string)) true]
    ∧ bufferedData s' = [].
Proof.
  eexists. 
  match goal with
  | |- ∃ s', run _ _ _ = Some ?s ∧ _ =>
      destruct (buffer_overflow_aborts never_throws frameB
                  (mkSession (repeat frameA 10) (Some 1) false None
                     CONNECTING OPEN [1] [] 2 [] false))
        as (s' & He & Hc & Hq & _)
  end.
  - reflexivity.
  - unfold MAX_BUFFER_SIZE. simpl. lia.
  - exists s'. split; [reflexivity|]. split; [exact He|].
    split; [exact Hc | exact Hq].
Defined.

(** C2 as stated has the overflow close carry a policy-violation code.  With
    eleven frames sent before the upstream opens, the only call made on the
    client socket is [close(1011, "buffer_overflow")], and 1011 is not that
    code. *)
Lemma buffer_overflow_code_counterexample :
  ∃ s, run never_throws (burst 11) init = Some s
    ∧ calls s = [Close Server (Some (1011%Z, "buffer_overflow"%string)) true]
    ∧ ¬ ∃ reason returned,
          Close Server (Some (POLICY_VIOLATION, reason)) returned ∈ calls s.
Proof.
  eexists. split; [reflexivity|]. split; [reflexivity|].
  intros (reason & returned & Hin). cbn in Hin.
  apply list_elem_of_singleton in Hin. discriminate Hin.
Qed.

(** ** The converse direction for the keepalive timer *)

Lemma failed_keepalives_snoc (l : list Call) (x : Call) :
  RelayExtra.failed_keepalives (l ++ [x])
  = RelayExtra.failed_keepalives l
    ++ (if RelayExtra.is_failed_keepalive x then [x] else []).
Proof.
  unfold RelayExtra.failed_keepalives. rewrite List.filter_app. simpl.
  by destruct (RelayExtra.is_failed_keepalive x).
Qed.

Lemma failed_keepalives_app (l1 l2 : list Call) :
  RelayExtra.failed_keepalives (l1 ++ l2)
  = RelayExtra.failed_keepalives l1 ++ RelayExtra.failed_keepalives l2.
Proof. apply List.filter_app. Qed.

Lemma failed_keepalives_flushed (f : Frame → Call) (q : list Frame) :
  (∀ d, RelayExtra.is_failed_keepalive (f d) = false) →
  RelayExtra.failed_keepalives (map f q) = [].
Proof.
  intros Hf. unfold RelayExtra.failed_keepalives.
  induction q as [|d q IH]; [done|]. simpl. by rewrite Hf.
Qed.

Ltac solve_keepalive_step :=
  unfold RelayExtra.keepalive_step; simpl_goal; clears_nf;
  rewrite ?failed_keepalives_snoc;
  cbn [RelayExtra.is_failed_keepalive RelayExtra.is_tick];
  rewrite ?app_nil_r;
  split_and!; intros;
  first
    [ done
    | discriminate
    | congruence
    | match goal with
      | H : _ ++ [_] = [] |- _ => by destruct (app_cons_not_nil _ _ _ (eq_sym H))
      end
    | by destruct_and?; eauto
    | intuition (first [congruence | discriminate | done]) ].

Lemma keepalive_step_server_message throws d s c s' :
  Inv s → dispatch throws (ServerMessage d) s = Some (c, s') →
  RelayExtra.keepalive_step (ServerMessage d) s s'.
Proof.
  intros [H1 H2 H3 H4 H5 H6 H7 H8] Hd.
  destruct s as [q [b|] u [k|] ur sr ts ivs n l t]; simpl_session.
  all: timers_nf.
  all: cbn [dispatch] in Hd; simpl_session.
  all: destruct (receiving sr); [|discriminate].
  all: destruct u, ur.
  all: step_cases Hd.
  all: solve_keepalive_step.
Qed.

Lemma keepalive_step_upstream_message throws d s c s' :
  Inv s → dispatch throws (UpstreamMessage d) s = Some (c, s') →
  RelayExtra.keepalive_step (UpstreamMessage d) s s'.
Proof.
  intros [H1 H2 H3 H4 H5 H6 H7 H8] Hd.
  destruct s as [q [b|] u [k|] ur sr ts ivs n l t]; simpl_session.
  all: timers_nf.
  all: cbn [dispatch] in Hd; simpl_session.
  all: destruct ur; cbn [receiving] in Hd; try discriminate Hd.
  all: step_cases Hd.
  all: solve_keepalive_step.
Qed.

Lemma keepalive_step_close_error throws e s c s' :
  e = ServerClose ∨ e = UpstreamClose ∨ e = ServerError ∨ e = UpstreamError →
  Inv s → dispatch throws e s = Some (c, s') →
  RelayExtra.keepalive_step e s s'.
Proof.
  intros He [H1 H2 H3 H4 H5 H6 H7 H8] Hd.
  destruct s as [q [b|] u [k|] ur sr ts ivs n l t]; simpl_session.
  all: timers_nf.
  all: destruct He as [->|[->|[->| ->]]]; cbn [dispatch] in Hd; simpl_session.
  all: destruct ur, sr; cbn [not_closed] in Hd; try discriminate Hd.
  all: step_cases Hd.
  all: solve_keepalive_step.
Qed.

Lemma keepalive_step_timers throws e s c s' :
  (∃ id, e = BufferTimeoutFires id ∨ e = KeepaliveTick id) →
  Inv s → dispatch throws e s = Some (c, s') →
  RelayExtra.keepalive_step e s s'.
Proof.
  intros [id He] [H1 H2 H3 H4 H5 H6 H7 H8] Hd.
  destruct s as [q b u k ur sr ts ivs n l t]; simpl_session.
  destruct He as [-> | ->]; cbn [dispatch] in Hd; simpl_session.
  - destruct (member id ts) eqn:Hm; [|discriminate].
    destruct (timer_var_ok_fire _ _ _ H1 Hm) as [Hr ->]. rewrite Hr in Hd.
    destruct u, q as [|d0 q0]; step_cases Hd; solve_keepalive_step.
  - destruct (member id ivs) eqn:Hm; [|discriminate].
    destruct (timer_var_ok_fire _ _ _ H2 Hm) as [Hr ->].
    destruct H2 as [[=]|(id' & -> & [= <-])].
    destruct ur; step_cases Hd; rewrite ?Nat.eqb_refl; cbn [negb List.filter];
      solve_keepalive_step.
Qed.

Lemma keepalive_step_closing throws e s c s' :
  e = UpstreamClosing ∨ e = ServerClosing →
  Inv s → dispatch throws e s = Some (c, s') →
  RelayExtra.keepalive_step e s s'.
Proof.
  intros He [H1 H2 H3 H4 H5 H6 H7 H8] Hd.
  destruct s as [q b u k ur sr ts ivs n l t]; simpl_session.
  destruct He as [-> | ->]; cbn [dispatch] in Hd; simpl_session.
  all: destruct ur, sr; try discriminate Hd.
  all: inversion Hd; subst; clear Hd.
  all: solve_keepalive_step.
Qed.

Lemma keepalive_step_upstream_open throws s c s' :
  Inv s → dispatch throws UpstreamOpen s = Some (c, s') →
  RelayExtra.keepalive_step UpstreamOpen s s'.
Proof.
  intros [H1 H2 H3 H4 H5 H6 H7 H8] Hd.
  cbn [dispatch] in Hd.
  destruct (upstream_readyState s) eqn:Hur; try discriminate Hd.
  destruct (H3 eq_refl) as (Hu & Hiv & Hsends).
  rewrite upstream_on_open_eq in Hd. cbv zeta in Hd.
  destruct s as [q [b|] u [k|] ur sr ts ivs n l t]; simpl_session; subst.
  all: timers_nf.
  all: try (destruct H2 as [[=]|(id' & _ & [=])]).
  all: destruct (first_failure throws (length l) (length q)) as [j|] eqn:Hf.
  all: unfold close in Hd; simpl_session.
  all: split_if Hd; inversion Hd; subst; clear Hd.
  all: solve_keepalive_step.
Qed.

Lemma dispatch_keepalive_step throws e s c s' :
  Inv s → dispatch throws e s = Some (c, s') →
  RelayExtra.keepalive_step e s s'.
Proof.
  destruct e.
  - apply keepalive_step_upstream_open.
  - apply keepalive_step_server_message.
  - apply keepalive_step_upstream_message.
  - apply keepalive_step_close_error; auto.
  - apply keepalive_step_close_error; auto.
  - apply keepalive_step_close_error; auto.
  - apply keepalive_step_close_error; auto.
  - apply keepalive_step_timers; eauto.
  - apply keepalive_step_timers; eauto.
  - apply keepalive_step_closing; auto.
  - apply keepalive_step_closing; auto.
Qed.

Lemma run_app (throws : nat → bool) (evs1 evs2 : list Event) (s : Session) :
  run throws (evs1 ++ evs2) s
  = match run throws evs1 s with
    | Some s1 => run throws evs2 s1
    | None => None
    end.
Proof.
  revert s. induction evs1 as [|e evs1 IH]; intros s; simpl; [done|].
  destruct (dispatch throws e s) as [[c s1]|]; [apply IH|done].
Qed.

Lemma run_armed_without_ticks (throws : nat → bool) (evs : list Event)
    (s s' : Session) :
  Inv s → Forall (λ e, RelayExtra.is_tick e = false) evs →
  (isUpstreamConnected s = true → tornDown s = false → intervals s ≠ []) →
  run throws evs s = Some s' →
  isUpstreamConnected s' = true → tornDown s' = false → intervals s' ≠ [].
Proof.
  revert s. induction evs as [|e evs IH]; intros s HI Hno HG Hr; simpl in Hr.
  - by inversion Hr; subst.
  - destruct (dispatch throws e s) as [[c s1]|] eqn:Hd; [|done].
    apply Forall_cons in Hno as [Hne Hno].
    destruct (dispatch_keepalive_step _ _ _ _ _ HI Hd) as (K1 & _).
    apply (IH s1); [|done|by apply K1|done].
    apply (dispatch_facts _ _ _ _ _ HI Hd).
Qed.

Lemma run_armed_while_open (throws : nat → bool) (evs : list Event)
    (s s' : Session) :
  Inv s →
  (isUpstreamConnected s = true → tornDown s = false →
   upstream_readyState s = OPEN → RelayExtra.failed_keepalives (calls s) = [] →
   intervals s ≠ []) →
  run throws evs s = Some s' →
  isUpstreamConnected s' = true → tornDown s' = false →
  upstream_readyState s' = OPEN → RelayExtra.failed_keepalives (calls s') = [] →
  intervals s' ≠ [].
Proof.
  revert s. induction evs as [|e evs IH]; intros s HI HG Hr; simpl in Hr.
  - by inversion Hr; subst.
  - destruct (dispatch throws e s) as [[c s1]|] eqn:Hd; [|done].
    destruct (dispatch_keepalive_step _ _ _ _ _ HI Hd) as (_ & K2 & _).
    apply (IH s1); [|by apply K2|done].
    apply (dispatch_facts _ _ _ _ _ HI Hd).
Qed.

Lemma run_torn_down_disarmed (throws : nat → bool) (evs : list Event)
    (s s' : Session) :
  Inv s → upstream_readyState s ≠ CONNECTING →
  (tornDown s = true → intervals s = []) →
  run throws evs s = Some s' →
  tornDown s' = true → intervals s' = [].
Proof.
  revert s. induction evs as [|e evs IH]; intros s HI Hur HT Hr; simpl in Hr.
  - by inversion Hr; subst.
  - destruct (dispatch throws e s) as [[c s1]|] eqn:Hd; [|done].
    destruct (dispatch_keepalive_step _ _ _ _ _ HI Hd) as (_ & _ & K3 & K4 & _).
    destruct (dispatch_facts _ _ _ _ _ HI Hd) as (_ & HI1 & _ & _ & F5).
    apply (IH s1); [done|by apply K4| |done].
    intros Ht1. destruct (tornDown s) eqn:Ht.
    + by destruct (F5 Hur (HT eq_refl)) as (_ & ? & _).
    + by apply K3.
Qed.

(** ** The keepalive timer *)

Lemma armed_intervals (s : Session) :
  keepalive_armed s = true ↔ intervals s ≠ [].
Proof. unfold keepalive_armed. by destruct (intervals s). Qed.

Lemma armed_timeouts (s : Session) :
  buffer_timer_armed s = true ↔ timeouts s ≠ [].
Proof. unfold buffer_timer_armed. by destruct (timeouts s). Qed.

Lemma cleanup_disarms (s : Session) :
  Inv s → intervals (cleanup s) = [] ∧ timeouts (cleanup s) = [].
Proof.
  intros [H1 H2 _ _ _ _ _ _].
  destruct s as [q [b|] u [k|] ur sr ts ivs n l t]; simpl_session;
    timers_nf; simpl_session; rewrite ?Hclear, ?Hclear0; done.
Qed.

(** C6 (amended). Between two listeners of a session: if the keepalive
    interval is armed, the ready flag is set; as long as the upstream has not
    opened, nothing at all is sent to it and the interval is not armed;
    [cleanup] leaves the interval disarmed; and once the interval is disarmed
    after the upstream has left the connecting state, it is never armed again
    and no further keepalive frame is sent.  Conversely, with the ready flag
    set and no teardown so far, the interval is armed as long as no keepalive
    tick has occurred, and also after any number of ticks while the upstream
    is open and no keepalive send has thrown.  And when the session was not
    torn down before the upstream opened, an armed interval means that the
    session is not torn down. *)
Theorem keepalive_armed_only_when_ready
    (throws : nat → bool) (evs : list Event) (s : Session) :
  run throws evs init = Some s →
  (keepalive_armed s = true → isUpstreamConnected s = true)
  ∧ (UpstreamOpen ∉ evs →
     keepalive_armed s = false
     ∧ List.filter is_upstream_send (calls s) = [])
  ∧ keepalive_armed (cleanup s) = false
  ∧ (∀ evs' s',
       upstream_readyState s ≠ CONNECTING → keepalive_armed s = false →
       run throws evs' s = Some s' →
       keepalive_armed s' = false
       ∧ List.filter is_keepalive_send (calls s')
         = List.filter is_keepalive_send (calls s))
  ∧ (Forall (λ e, RelayExtra.is_tick e = false) evs →
     isUpstreamConnected s = true → tornDown s = false →
     keepalive_armed s = true)
  ∧ (isUpstreamConnected s = true → tornDown s = false →
     upstream_readyState s = OPEN →
     RelayExtra.failed_keepalives (calls s) = [] →
     keepalive_armed s = true)
  ∧ (∀ evs1 evs2 s1,
       evs = evs1 ++ UpstreamOpen :: evs2 →
       run throws evs1 init = Some s1 → tornDown s1 = false →
       keepalive_armed s = true → tornDown s = false).
Proof.
  intros Hr. pose proof (run_inv _ _ _ _ init_inv Hr) as HI.
  split_and!.
  - intros Ha. apply armed_intervals in Ha. by apply HI.
  - intros Hno.
    destruct (run_before_open throws evs init s init_inv Hno eq_refl eq_refl Hr)
      as (_ & Hiv & Hs).
    unfold keepalive_armed. by rewrite Hiv.
  - unfold keepalive_armed. by rewrite (proj1 (cleanup_disarms s HI)).
  - intros evs' s' Hur Ha Hr'.
    assert (Hiv : intervals s = [])
      by (unfold keepalive_armed in Ha; by destruct (intervals s)).
    destruct (run_disarmed throws evs' s s' HI Hur Hiv Hr') as (_ & Hiv' & Hk).
    unfold keepalive_armed. by rewrite Hiv'.
  - intros Hno Hu Ht. apply armed_intervals.
    apply (run_armed_without_ticks throws evs init s init_inv Hno); try done.
  - intros Hu Ht Hur Hnf. apply armed_intervals.
    apply (run_armed_while_open throws evs init s init_inv); try done.
  - intros evs1 evs2 s1 -> Hr1 Ht1 Ha.
    rewrite run_app, Hr1 in Hr. cbn [run] in Hr.
    destruct (dispatch throws UpstreamOpen s1) as [[c s2]|] eqn:Hd; [|done].
    pose proof (run_inv _ _ _ _ init_inv Hr1) as HI1.
    destruct (dispatch_keepalive_step _ _ _ _ _ HI1 Hd)
      as (_ & _ & K3 & _ & K5).
    pose proof (proj1 (proj2 (dispatch_facts _ _ _ _ _ HI1 Hd))) as HI2.
    destruct (tornDown s) eqn:Ht; [|done].
    apply armed_intervals in Ha. exfalso. apply Ha.
    apply (run_torn_down_disarmed throws evs2 s2 s HI2); try done.
    + by apply K5.
    + intros Ht2. by apply K3.
Qed.

Lemma keepalive_armed_only_when_ready_witness :
  ∃ s, run never_throws [ServerMessage frameA; UpstreamOpen] init = Some s
    ∧ isUpstreamConnected s = true
    ∧ keepalive_armed (cleanup s) = false
    ∧ keepalive_armed s = true.
Proof.
  eexists. split; [reflexivity|].
  destruct (keepalive_armed_only_when_ready never_throws
              [ServerMessage frameA; UpstreamOpen] _ eq_refl)
    as (Hready & _ & Hclean & _ & Hconv & _).
  split; [apply Hready; reflexivity|]. split; [exact Hclean|].
  apply Hconv; [|reflexivity|reflexivity].
  repeat constructor.
Defined.

(** The equivalence of C6 fails in both directions.  A keepalive send that
    throws disarms the interval while the ready flag stays set and [cleanup]
    has not run; and an overflow runs [cleanup] while the upstream is still
    connecting, after which the upstream opens and the interval is armed. *)
Lemma keepalive_armed_iff_counterexample :
  (∃ s, run (throws_at 0) [UpstreamOpen; KeepaliveTick 1] init = Some s
     ∧ isUpstreamConnected s = true ∧ tornDown s = false
     ∧ keepalive_armed s = false)
  ∧ (∃ s, run never_throws (burst 11 ++ [UpstreamOpen]) init = Some s
       ∧ tornDown s = true ∧ keepalive_armed s = true).
Proof. split; eexists; (split; [reflexivity|]); split_and!; reflexivity. Qed.

(** ** The buffer-deadline timer *)

(** C7 (amended). Between two listeners of a session: if the buffer-deadline
    timer is armed the queue is non-empty; if the queue is non-empty and the
    ready flag is not set, the timer is armed; and at most one such timer is
    pending, the one whose handle is in [bufferTimeout]. *)
Theorem buffer_timer_armed_while_frames_wait
    (throws : nat → bool) (evs : list Event) (s : Session) :
  run throws evs init = Some s →
  (buffer_timer_armed s = true → bufferedData s ≠ [])
  ∧ (bufferedData s ≠ [] → isUpstreamConnected s = false →
     buffer_timer_armed s = true)
  ∧ (buffer_timer_armed s = true →
     ∃ id, bufferTimeout s = Some id ∧ timeouts s = [id]).
Proof.
  intros Hr. pose proof (run_inv _ _ _ _ init_inv Hr) as HI.
  split_and!.
  - intros Ha. apply armed_timeouts in Ha. by apply HI.
  - intros Hq Hu. apply armed_timeouts. by apply HI.
  - intros Ha. apply armed_timeouts in Ha.
    by destruct (inv_timeouts _ HI) as [?|?].
Qed.

Lemma buffer_timer_armed_while_frames_wait_witness :
  ∃ s, run never_throws [ServerMessage frameA] init = Some s
    ∧ buffer_timer_armed s = true
    ∧ bufferedData s ≠ [].
Proof.
  eexists. split; [reflexivity|].
  destruct (buffer_timer_armed_while_frames_wait never_throws
              [ServerMessage frameA] _ eq_refl) as (Hne & Harm & _).
  assert (Ha : buffer_timer_armed
                 (mkSession [frameA] (Some 1) false None CONNECTING OPEN
                    [1] [] 2 [] false) = true).
  { apply Harm; [discriminate | reflexivity]. }
  split; [exact Ha | exact (Hne Ha)].
Defined.

(** The equivalence of C7 fails from left to right.  A frame that arrives
    after the upstream has opened and has started to close is queued and arms
    the timer, with the ready flag still set; the upstream may have started to
    close by itself, or because the listener of an upstream message called
    [upstream.close(1011, "client_ws_error")] after a send to the client
    threw. *)
Lemma buffer_timer_armed_iff_counterexample :
  (∃ s, run never_throws [UpstreamOpen; UpstreamClosing; ServerMessage frameA] init
        = Some s
     ∧ buffer_timer_armed s = true
     ∧ bufferedData s = [frameA]
     ∧ isUpstreamConnected s = true)
  ∧ (∃ s, run (throws_at 0)
            [UpstreamOpen; UpstreamMessage frameB; ServerMessage frameA] init
          = Some s
       ∧ buffer_timer_armed s = true
       ∧ bufferedData s = [frameA]
       ∧ isUpstreamConnected s = true).
Proof. split; eexists; (split; [reflexivity|]); split_and!; reflexivity. Qed.

(** ** Teardown more than once *)

(** C8 as stated has teardown take effect at most once per session.  Here
    the overflow listener runs [cleanup] (the deadline timer is cleared) and
    closes the client socket; the upstream then opens and arms the keepalive;
    the client [close] listener runs [cleanup] again (the keepalive is
    cleared) and closes the upstream, whose [close] listener closes the client
    socket a second time. *)
Lemma teardown_more_than_once_counterexample :
  ∃ s1 s2 s3 s4 s5,
    run never_throws (burst 10) init = Some s1
    ∧ run never_throws [ServerMessage frameA] s1 = Some s2
    ∧ run never_throws [UpstreamOpen] s2 = Some s3
    ∧ run never_throws [ServerClose] s3 = Some s4
    ∧ run never_throws [UpstreamClose] s4 = Some s5
    ∧ buffer_timer_armed s1 = true ∧ buffer_timer_armed s2 = false
    ∧ tornDown s2 = true
    ∧ keepalive_armed s3 = true ∧ keepalive_armed s4 = false
    ∧ List.filter (is_close_of Server) (calls s5)
      = [Close Server (Some (1011%Z, "buffer_overflow"%string)) true;
         Close Server None true].
Proof.
  do 5 eexists. split_and!; reflexivity.
Qed.

End RelayFacts.

(** * Properties of the string helpers *)

Module StringFacts.
Import Worker.

Lemma trim_start_suffix (s : jsstring) :
  ∃ w, s = w ++ trim_start s.
Proof.
  induction s as [|c s [w IH]]; [by exists []|]. simpl.
  destruct (js_whitespace c); [|by exists []].
  exists (c :: w). simpl. by f_equal.
Qed.

Lemma trim_start_starts (s : jsstring) : starts_ws (trim_start s) = false.
Proof.
  induction s as [|c s IH]; [done|]. simpl.
  destruct (js_whitespace c) eqn:E; [done|]. simpl. exact E.
Qed.

Lemma starts_ws_prefix (a b : jsstring) :
  a ≠ [] → starts_ws (a ++ b) = starts_ws a.
Proof. by destruct a. Qed.

Lemma trim_prefix_of_trim_start (s : jsstring) :
  ∃ w, trim_start s = trim s ++ w.
Proof.
  unfold trim. destruct (trim_start_suffix (rev (trim_start s))) as [w Hw].
  exists (rev w). rewrite <- rev_app_distr, <- Hw. by rewrite rev_involutive.
Qed.

Lemma trim_starts (s : jsstring) : starts_ws (trim s) = false.
Proof.
  destruct (trim_prefix_of_trim_start s) as [w Hw].
  destruct (trim s) as [|c t] eqn:Ht; [done|].
  pose proof (trim_start_starts s) as H. rewrite Hw in H. exact H.
Qed.

Lemma trim_ends (s : jsstring) : ends_ws (trim s) = false.
Proof.
  unfold ends_ws, trim. rewrite rev_involutive. apply trim_start_starts.
Qed.

Lemma trim_elem_of (c : N) (s : jsstring) : c ∈ trim s → c ∈ s.
Proof.
  intros Hin. destruct (trim_prefix_of_trim_start s) as [w Hw].
  destruct (trim_start_suffix s) as [v Hv].
  rewrite Hv, Hw. apply elem_of_app. right. apply elem_of_app. by left.
Qed.

Lemma split_pieces_without_separator (sep : N) (s : jsstring) :
  Forall (λ piece, sep ∉ piece) (split sep s).
Proof.
  induction s as [|c s IH]; simpl.
  - constructor; [apply not_elem_of_nil|constructor].
  - destruct (c =? sep)%N eqn:E.
    + constructor; [apply not_elem_of_nil|exact IH].
    + apply N.eqb_neq in E.
      destruct (split sep s) as [|piece pieces].
      * constructor; [|constructor].
        apply not_elem_of_cons. split; [congruence|apply not_elem_of_nil].
      * apply Forall_cons in IH as [Hp Hps].
        constructor; [|exact Hps].
        apply not_elem_of_cons. split; [congruence|exact Hp].
Qed.

Lemma split_nonempty (sep : N) (s : jsstring) : split sep s ≠ [].
Proof.
  destruct s as [|c s]; simpl; [done|].
  destruct (c =? sep)%N; [done|]. by destruct (split sep s).
Qed.

(** An entry of [list.split(',').map(d => d.trim())] has no comma and no
    white space at either end. *)
Lemma trimmed_entry (allowed v : jsstring) :
  v ∈ map trim (split Cors.comma allowed) →
  (Cors.comma ∉ v) ∧ starts_ws v = false ∧ ends_ws v = false.
Proof.
  intros Hin. apply list_elem_of_fmap in Hin.
  destruct Hin as (piece & Heq & Hp). subst v.
  pose proof (split_pieces_without_separator Cors.comma allowed) as Hall.
  rewrite Forall_forall in Hall. specialize (Hall _ Hp).
  split_and!; [|apply trim_starts|apply trim_ends].
  intros Hc. apply Hall. by apply trim_elem_of.
Qed.

End StringFacts.

(** * More properties of [getCorsHeaders] *)

Module CorsMoreFacts.
Import Cors StringFacts.
Import (notations) Worker.

Lemma cors_headers_dom (request : Request) (env : Env) :
  dom (getCorsHeaders request env)
  = {[ "Access-Control-Allow-Methods"%string;
       "Access-Control-Allow-Headers"%string;
       "Access-Control-Allow-Origin"%string ]}.
Proof.
  unfold getCorsHeaders, base_headers.
  destruct (header_Origin request); [destruct (origin_allowed _ _)|];
    rewrite !dom_insert_L, dom_empty_L; set_solver.
Qed.

(** X1. Whatever the request and the environment, [getCorsHeaders] returns
    exactly three headers; the allowed methods and the allowed request headers
    are fixed strings. *)
Theorem cors_headers_fixed_part (request : Request) (env : Env) :
  let h := getCorsHeaders request env in
  dom h = {[ "Access-Control-Allow-Methods"%string;
             "Access-Control-Allow-Headers"%string;
             "Access-Control-Allow-Origin"%string ]}
  ∧ h !! "Access-Control-Allow-Methods"%string
    = Some (js "GET, HEAD, POST, PUT, OPTIONS")
  ∧ h !! "Access-Control-Allow-Headers"%string
    = Some (js "Content-Type, Authorization").
Proof.
  split; [apply cors_headers_dom|].
  unfold getCorsHeaders, base_headers.
  by destruct (header_Origin request); [destruct (origin_allowed _ _)|].
Qed.

(** X2. Without [CORS_ALLOW_ORIGIN] in the environment every request, whatever
    its Origin header, gets [Access-Control-Allow-Origin: *]. *)
Theorem cors_without_allow_list (request : Request) (env : Env) :
  CORS_ALLOW_ORIGIN env = None →
  getCorsHeaders request env !! "Access-Control-Allow-Origin"%string
  = Some (js "*").
Proof.
  intros Hnone. unfold getCorsHeaders, origin_allowed, supportedDomains.
  rewrite Hnone. by destruct (header_Origin request).
Qed.

Lemma cors_without_allow_list_witness :
  getCorsHeaders {| header_Origin := Some (js "https://evil.example") |}
    {| CORS_ALLOW_ORIGIN := None |}
    !! "Access-Control-Allow-Origin"%string = Some (js "*").
Proof. apply cors_without_allow_list. reflexivity. Defined.

(** X3. A value of [Access-Control-Allow-Origin] other than the wildcard is
    never empty, contains no comma and has no white space at either end: an
    Origin header that is empty, contains a comma, or starts or ends with
    white space is never echoed, whatever the allow-list. *)
Theorem cors_echo_is_a_clean_entry (request : Request) (env : Env) (v : jsstring) :
  getCorsHeaders request env !! "Access-Control-Allow-Origin"%string = Some v →
  v ≠ js "*" →
  header_Origin request = Some v
  ∧ v ≠ [] ∧ (comma ∉ v) ∧ Worker.starts_ws v = false ∧ Worker.ends_ws v = false.
Proof.
  unfold getCorsHeaders, origin_allowed, supportedDomains.
  destruct (header_Origin request) as [origin|]; [|by rewrite lookup_insert_eq; intros [= <-]].
  destruct (CORS_ALLOW_ORIGIN env) as [allowed|];
    [|by rewrite lookup_insert_eq; intros [= <-]].
  destruct (truthy_string (Some origin)
            && includes (map trim (split comma allowed)) origin) eqn:Hc;
    rewrite lookup_insert_eq; intros [= <-]; [|done].
  intros _. apply andb_true_iff in Hc as [Ht Hi].
  apply CorsFacts.includes_elem_of in Hi.
  destruct (trimmed_entry _ _ Hi) as (? & ? & ?).
  split_and!; try done. by destruct origin.
Qed.

Lemma cors_echo_is_a_clean_entry_witness :
  header_Origin {| header_Origin := Some (js "https://b.example") |}
  = Some (js "https://b.example")
  ∧ Worker.starts_ws (js "https://b.example") = false.
Proof.
  destruct (cors_echo_is_a_clean_entry
              {| header_Origin := Some (js "https://b.example") |}
              {| CORS_ALLOW_ORIGIN := Some (js "https://a.example, https://b.example") |}
              (js "https://b.example")) as (H1 & _ & _ & H2 & _).
  - vm_compute. reflexivity.
  - vm_compute. discriminate.
  - split; [exact H1 | exact H2].
Defined.

End CorsMoreFacts.

(** * Properties of the request handlers *)

Module WorkerFacts.
Import Worker StringFacts.

Section Handlers.
Variable net : OutRequest → option NetResponse.
Variable websocket_throws : jsstring → list jsstring → bool.
Variable toLowerCase : jsstring → jsstring.
Variable body_unreadable : Request → bool.
Variable request_refused : OutRequest → bool.
Variable response_refused : NetResponse → bool.

(** X4. [handleRPC] hands at most one request to [fetch]: none when the
    body cannot be read or the [Request] constructor throws, otherwise the
    request it has built.  That request never carries [cf-connecting-ip],
    [x-forwarded-for] or [true-client-ip]; its content type is always
    [application/json]; every other header of the client's request is passed
    on unchanged. *)
Theorem rpc_strips_client_ip (request : Request) (env : Env)
    (corsHeaders : gmap string jsstring) :
  let out := proxyRequest request env in
  (handleRPC net body_unreadable request_refused response_refused
     request env corsHeaders).2
  = (if body_unreadable request
        || request_constructor_throws request_refused out
     then [] else [out])
  ∧ Forall (λ h, out_headers out !! h = None) client_ip_headers
  ∧ out_headers out !! "content-type"%string = Some (js "application/json")
  ∧ ∀ h, h ∉ client_ip_headers → h ≠ "content-type"%string →
         out_headers out !! h = headers request !! h.
Proof.
  cbv zeta. split_and!.
  - unfold handleRPC. cbv zeta.
    destruct (body_unreadable request); [done|].
    destruct (request_constructor_throws _ _); [done|]. cbn [orb].
    destruct (net _) as [response|]; [|done].
    by destruct (response_refused response).
  - unfold proxyRequest, anonymizedHeaders, client_ip_headers.
    cbn [out_headers]. repeat constructor; by simplify_map_eq.
  - unfold proxyRequest, anonymizedHeaders. cbn [out_headers].
    by simplify_map_eq.
  - intros h Hh Hct. unfold client_ip_headers in Hh.
    rewrite !not_elem_of_cons in Hh. destruct Hh as (? & ? & ? & _).
    unfold proxyRequest, anonymizedHeaders. cbn [out_headers].
    by simplify_map_eq.
Qed.

(** X5. [handleRPC] always answers and never throws, and the answer carries
    the CORS headers it was given.  It is 502 with body [Proxy Error] when the
    body cannot be read, when the [Request] constructor throws (as it does for
    a GET or HEAD request with a non-empty body: nothing is fetched then),
    when the outbound [fetch] fails, or when the [Response] constructor
    throws; otherwise it has the status and the body of the upstream's
    response. *)
Theorem rpc_always_answers (request : Request) (env : Env)
    (corsHeaders : gmap string jsstring) :
  let out := proxyRequest request env in
  let result := handleRPC net body_unreadable request_refused response_refused
                  request env corsHeaders in
  (∃ r, result.1 = Plain r
     ∧ resp_headers r = corsHeaders
     ∧ (status r, body r)
       = if body_unreadable request
            || request_constructor_throws request_refused out
         then (502%Z, Some (js "Proxy Error"))
         else match net out with
              | None => (502%Z, Some (js "Proxy Error"))
              | Some response =>
                  if response_refused response
                  then (502%Z, Some (js "Proxy Error"))
                  else (net_status response, net_body response)
              end)
  ∧ (method request = js "GET" ∨ method request = js "HEAD" →
     text request ≠ [] →
     result = (Plain {| status := 502; resp_headers := corsHeaders;
                        body := Some (js "Proxy Error") |}, [])).
Proof.
  cbv zeta. split.
  - unfold handleRPC. cbv zeta.
    destruct (body_unreadable request); [by eexists|].
    destruct (request_constructor_throws _ _); [by eexists|]. cbn [orb].
    destruct (net _) as [response|]; [|by eexists].
    by destruct (response_refused response); eexists.
  - intros Hm Ht. unfold handleRPC. cbv zeta.
    destruct (body_unreadable request); [done|].
    assert (Hthrow : request_constructor_throws request_refused
                       (proxyRequest request env) = true).
    { unfold request_constructor_throws, get_or_head_with_body, proxyRequest,
        or_null, jsstring_eqb.
      cbn [out_method out_body].
      destruct (text request) as [|c p]; [done|].
      destruct Hm as [-> | ->]; by rewrite ?bool_decide_eq_true_2 by done. }
    by rewrite Hthrow.
Qed.

(** X6. [handleWebhookForwarding] answers 405 to every method other than
    POST, and 401 when a non-empty [WEBHOOK_SECRET] is configured and the
    Authorization header is absent or differs from it; in both cases nothing
    is sent to the backend. *)
Theorem webhook_refuses (request : Request) (env : Env) :
  (method request ≠ js "POST" →
   handleWebhookForwarding net request env
   = (Plain {| status := 405; resp_headers := ∅;
               body := Some (js "Method Not Allowed") |}, []))
  ∧ (method request = js "POST" →
     truthy_string (WEBHOOK_SECRET env) = true →
     headers request !! "authorization"%string ≠ WEBHOOK_SECRET env →
     handleWebhookForwarding net request env
     = (Plain {| status := 401; resp_headers := ∅;
                 body := Some (js "Unauthorized") |}, [])).
Proof.
  unfold handleWebhookForwarding, jsstring_eqb. split.
  - intros Hm. by rewrite bool_decide_eq_false_2.
  - intros Hm Hs Ha. rewrite bool_decide_eq_true_2 by done. cbn [negb].
    rewrite Hs. by rewrite bool_decide_eq_false_2.
Qed.


(** X8. The order of the routes of [fetch].  The webhook path is served by
    [handleWebhookForwarding] whatever the method and whether or not an API
    key is configured.  On every other path a missing or empty
    [HELIUS_API_KEY] gives 500 and nothing is contacted, and with a key an
    OPTIONS request gets 200 with the CORS headers and no body, and nothing is
    contacted, even when it asks for a WebSocket upgrade. *)
Theorem fetch_route_order (request : Request) (env : Env) :
  (pathname request = js "/helius-webhook" →
   fetch net websocket_throws toLowerCase body_unreadable request_refused
     response_refused request env
   = handleWebhookForwarding net request env)
  ∧ (pathname request ≠ js "/helius-webhook" →
     truthy_string (HELIUS_API_KEY env) = false →
     fetch net websocket_throws toLowerCase body_unreadable request_refused
     response_refused request env
     = (Plain {| status := 500; resp_headers := ∅;
                 body := Some (js "Missing HELIUS_API_KEY") |}, []))
  ∧ (pathname request ≠ js "/helius-webhook" →
     truthy_string (HELIUS_API_KEY env) = true →
     method request = js "OPTIONS" →
     fetch net websocket_throws toLowerCase body_unreadable request_refused
     response_refused request env
     = (Plain {| status := 200;
                 resp_headers :=
                   Cors.getCorsHeaders (cors_request request) (cors_env env);
                 body := None |}, [])).
Proof.
  unfold fetch, jsstring_eqb. split_and!.
  - intros Hp. by rewrite bool_decide_eq_true_2.
  - intros Hp Hk. rewrite bool_decide_eq_false_2 by done. by rewrite Hk.
  - intros Hp Hk Hm. rewrite bool_decide_eq_false_2 by done. rewrite Hk.
    cbn [negb]. by rewrite bool_decide_eq_true_2.
Qed.

(** X9. Away from the webhook path and with an API key, every answer of
    [fetch] (preflight, proxied call, proxy error, WebSocket handshake)
    carries the three CORS headers, with [Access-Control-Allow-Origin] either
    the wildcard or the request's own Origin; the only way to end without an
    answer is the WebSocket constructor throwing. *)
Theorem fetch_answers_carry_cors (request : Request) (env : Env) :
  pathname request ≠ js "/helius-webhook" →
  truthy_string (HELIUS_API_KEY env) = true →
  let cors := Cors.getCorsHeaders (cors_request request) (cors_env env) in
  match (fetch net websocket_throws toLowerCase body_unreadable request_refused
     response_refused request env).1 with
  | Plain r | Upgraded r _ =>
      (∀ k, is_Some (cors !! k) → resp_headers r !! k = cors !! k)
      ∧ ∃ v, resp_headers r !! "Access-Control-Allow-Origin"%string = Some v
          ∧ (v = js "*" ∨ headers request !! "origin"%string = Some v)
  | Rejected =>
      toLowerCase <$> headers request !! "upgrade"%string = Some (js "websocket")
  end.
Proof.
  intros Hp Hk cors.
  assert (Hacao : ∃ v, cors !! "Access-Control-Allow-Origin"%string = Some v
                    ∧ (v = js "*" ∨ headers request !! "origin"%string = Some v)).
  { subst cors. unfold Cors.getCorsHeaders, cors_request. cbn [Cors.header_Origin].
    destruct (headers request !! "origin"%string) as [o|];
      [destruct (Cors.origin_allowed _ _)|];
      rewrite lookup_insert_eq; eauto. }
  assert (Hnoproto : cors !! "Sec-WebSocket-Protocol"%string = None).
  { pose proof (CorsMoreFacts.cors_headers_dom
                  (cors_request request) (cors_env env)) as Hdom.
    apply not_elem_of_dom. fold cors in Hdom. rewrite Hdom.
    rewrite !not_elem_of_union, !not_elem_of_singleton. by split_and!. }
  unfold fetch, jsstring_eqb. rewrite bool_decide_eq_false_2 by done.
  rewrite Hk. cbn [negb]. fold cors.
  destruct (bool_decide (method request = js "OPTIONS")); [by split|].
  destruct (bool_decide (_ = Some (js "websocket"))) eqn:Hup.
  - apply bool_decide_eq_true in Hup. unfold handleWebSocket. cbv zeta.
    destruct (websocket_throws _ _); [exact Hup|]. cbn [fst resp_headers].
    destruct (selectedProtocol request) as [p|]; [|by split].
    destruct (truthy_string (Some p)); [|by split].
    split.
    + intros k [x Hx]. rewrite lookup_insert_ne; [done|].
      intros <-. congruence.
    + destruct Hacao as (v & Hv & Hor). exists v. split; [|done].
      by rewrite lookup_insert_ne.
  - unfold handleRPC. cbv zeta.
    destruct (body_unreadable request); [by split|].
    destruct (request_constructor_throws _ _); [by split|].
    destruct (net _) as [response|]; [|by split].
    by destruct (response_refused response); split.
Qed.

(** X10. The WebSocket handshake.  When the constructor does not throw, the
    answer is 101 without a body and a fresh session starts.  A sub-protocol
    is passed to the upstream exactly when it is mirrored in
    [Sec-WebSocket-Protocol], and it is the same one: the first
    comma-separated token of the client's header, trimmed.  It is never
    empty, has no comma and no white space at either end; without the header,
    or with a blank first token, no sub-protocol is passed or mirrored. *)
Theorem ws_handshake_mirrors_protocol (request : Request) (env : Env)
    (corsHeaders : gmap string jsstring) :
  corsHeaders !! "Sec-WebSocket-Protocol"%string = None →
  websocket_throws (ws_upstreamUrl request env)
    (match selectedProtocol request with
     | Some (c :: p) => [c :: p]
     | _ => []
     end) = false →
  ∃ r u, handleWebSocket websocket_throws request env corsHeaders
         = (Upgraded r u, [])
    ∧ status r = 101%Z ∧ body r = None
    ∧ session u = Relay.init
    ∧ upstreamUrl u = ws_upstreamUrl request env
    ∧ match resp_headers r !! "Sec-WebSocket-Protocol"%string with
      | Some p =>
          protocols u = [p]
          ∧ (∃ clientProtocols,
               headers request !! "sec-websocket-protocol"%string
               = Some clientProtocols
               ∧ p = trim (hd [] (split Cors.comma clientProtocols)))
          ∧ p ≠ [] ∧ (Cors.comma ∉ p)
          ∧ starts_ws p = false ∧ ends_ws p = false
      | None =>
          protocols u = []
          ∧ (selectedProtocol request = None
             ∨ selectedProtocol request = Some [])
      end.
Proof.
  intros Hcors Hws. unfold handleWebSocket. cbv zeta.
  unfold selectedProtocol in *.
  destruct (headers request !! "sec-websocket-protocol"%string)
    as [clientProtocols|] eqn:Hh.
  - remember (trim (hd [] (split Cors.comma clientProtocols))) as p eqn:Hp.
    symmetry in Hp.
    destruct p as [|c p']; cbn [truthy_string] in *;
      (destruct (websocket_throws _ _) eqn:E;
       [exfalso; clear -Hws E; congruence|]).
    + do 2 eexists. split; [reflexivity|].
      cbn [status body session upstreamUrl resp_headers protocols].
      rewrite Hcors. split_and!; try reflexivity. auto.
    + do 2 eexists. split; [reflexivity|]. cbn [status body session upstreamUrl
        resp_headers protocols]. rewrite lookup_insert_eq.
      split_and!; try reflexivity; try done.
      * by exists clientProtocols.
      * rewrite <- Hp. intros Hc. apply trim_elem_of in Hc.
        pose proof (split_pieces_without_separator Cors.comma clientProtocols) as Hall.
        pose proof (split_nonempty Cors.comma clientProtocols) as Hne.
        destruct (split Cors.comma clientProtocols) as [|piece pieces]; [done|].
        apply Forall_cons in Hall as [Hpiece _]. by apply Hpiece.
      * rewrite <- Hp. apply trim_starts.
      * rewrite <- Hp. apply trim_ends.
  - destruct (websocket_throws _ _) eqn:E;
      [exfalso; clear -Hws E; congruence|].
    do 2 eexists. split; [reflexivity|].
      cbn [status body session upstreamUrl resp_headers protocols].
      rewrite Hcors. split_and!; try reflexivity. auto.
Qed.

End Handlers.

Lemma rpc_always_answers_witness :
  handleRPC (net_ok 200) readable request_accepted response_accepted
    {| method := js "GET"; pathname := js "/"; search := [];
       headers := ∅; text := js "{}" |} sample_env ∅
  = (Plain {| status := 502; resp_headers := ∅;
              body := Some (js "Proxy Error") |}, []).
Proof.
  apply (proj2 (rpc_always_answers (net_ok 200) readable request_accepted
                  response_accepted
                  {| method := js "GET"; pathname := js "/"; search := [];
                     headers := ∅; text := js "{}" |} sample_env ∅)).
  - left. reflexivity.
  - discriminate.
Defined.

Lemma webhook_refuses_witness :
  (handleWebhookForwarding net_down
     {| method := js "GET"; pathname := js "/helius-webhook"; search := [];
        headers := ∅; text := [] |} sample_env).2 = []
  ∧ (handleWebhookForwarding net_down
       {| method := js "POST"; pathname := js "/helius-webhook"; search := [];
          headers := <["authorization"%string := js "wrong"]> ∅; text := [] |}
       sample_env).2 = [].
Proof.
  split.
  - rewrite (proj1 (webhook_refuses net_down _ sample_env)); [reflexivity|].
    vm_compute. discriminate.
  - rewrite (proj2 (webhook_refuses net_down _ sample_env));
      [reflexivity|reflexivity|reflexivity|].
    vm_compute. discriminate.
Defined.


Lemma fetch_route_order_witness :
  fetch net_down ws_ok ascii_lower readable request_accepted
      response_accepted sample_request
    {| HELIUS_API_KEY := None; CORS_ALLOW_ORIGIN := None;
       BACKEND_WEBHOOK_URL := []; WEBHOOK_SECRET := None |}
  = (Plain {| status := 500; resp_headers := ∅;
              body := Some (js "Missing HELIUS_API_KEY") |}, []).
Proof.
  apply (proj1 (proj2 (fetch_route_order net_down ws_ok ascii_lower
                         readable request_accepted response_accepted
                         sample_request _))).
  - vm_compute. discriminate.
  - reflexivity.
Defined.

Lemma fetch_answers_carry_cors_witness :
  match (fetch (net_ok 200) ws_ok ascii_lower readable request_accepted
           response_accepted sample_request sample_env).1 with
  | Plain r | Upgraded r _ =>
      ∃ v, resp_headers r !! "Access-Control-Allow-Origin"%string = Some v
  | Rejected => False
  end.
Proof.
  pose proof (fetch_answers_carry_cors (net_ok 200) ws_ok ascii_lower
                readable request_accepted response_accepted
                sample_request sample_env) as H.
  assert (Hp : pathname sample_request ≠ js "/helius-webhook")
    by (vm_compute; discriminate).
  specialize (H Hp eq_refl). cbv zeta in H.
  destruct (fetch (net_ok 200) ws_ok ascii_lower readable request_accepted
           response_accepted sample_request sample_env).1
    as [r|r u|].
  - destruct H as (_ & v & Hv & _). by exists v.
  - destruct H as (_ & v & Hv & _). by exists v.
  - vm_compute in H. discriminate H.
Defined.

Lemma ws_handshake_mirrors_protocol_witness :
  ∃ r u, handleWebSocket ws_ok
           {| method := js "GET"; pathname := js "/"; search := [];
              headers := <["sec-websocket-protocol"%string := js " json , x"]> ∅;
              text := [] |} sample_env ∅ = (Upgraded r u, [])
    ∧ status r = 101%Z.
Proof.
  destruct (ws_handshake_mirrors_protocol ws_ok
              {| method := js "GET"; pathname := js "/"; search := [];
                 headers := <["sec-websocket-protocol"%string := js " json , x"]> ∅;
                 text := [] |} sample_env ∅)
    as (r & u & H1 & H2 & _).
  - apply lookup_empty.
  - reflexivity.
  - exists r, u. split; [exact H1 | exact H2].
Defined.

Lemma question_marks_app (a b : jsstring) :
  question_marks (a ++ b) = question_marks a + question_marks b.
Proof. unfold question_marks. by rewrite List.filter_app, length_app. Qed.

(** X20. Both upstream URLs are well formed as far as the query goes.  When
    the API key and the path contain no question mark and the request's
    [search] is empty or a question mark followed by a query without one (as
    the URL parser gives it), the URL [handleRPC] calls and the URL
    [handleWebSocket] connects to contain exactly one question mark. *)
Theorem proxied_urls_have_one_query_mark (request : Request) (env : Env)
    (key : jsstring) :
  HELIUS_API_KEY env = Some key →
  question_marks key = 0 →
  question_marks (pathname request) = 0 →
  search request = []
  ∨ (∃ q, search request = 63%N :: q ∧ question_marks q = 0) →
  question_marks (targetUrl request env) = 1
  ∧ question_marks (ws_upstreamUrl request env) = 1.
Proof.
  intros Hkey Hk Hp Hs. unfold targetUrl, ws_upstreamUrl, targetHost.
  rewrite Hkey. cbn [interpolate].
  assert (Hhost : ∀ b : bool,
    question_marks (if b then js "mainnet.helius-rpc.com"
                    else js "api.helius.xyz") = 0) by (by intros []).
  destruct Hs as [Hs|(q & Hs & Hq)]; rewrite Hs; cbn [truthy_string drop];
    rewrite ?drop_0, !question_marks_app, ?Hhost, ?Hk, ?Hp, ?Hq.
  - by split.
  - split; [reflexivity|].
    change (63%N :: q) with ([63%N] ++ q).
    rewrite question_marks_app, Hq. reflexivity.
Qed.

Lemma proxied_urls_have_one_query_mark_witness :
  question_marks (targetUrl sample_request sample_env) = 1
  ∧ question_marks (ws_upstreamUrl sample_request sample_env) = 1.
Proof.
  apply (proxied_urls_have_one_query_mark sample_request sample_env (js "KEY"));
    [reflexivity|reflexivity|reflexivity|].
  right. exists (js "commitment=x"). split; reflexivity.
Defined.

End WorkerFacts.

(** * More properties of the relay *)

Module RelayMoreFacts.
Import Relay RelayExtra RelayFacts.
Local Open Scope stmt_scope.

(** ** Bounds that hold throughout a session *)

(** X11. In every session, whatever the events and whichever calls throw, the
    queue never holds more than [MAX_BUFFER_SIZE] frames. *)
Theorem queue_never_exceeds_capacity
    (throws : nat → bool) (evs : list Event) (s : Session) :
  run throws evs init = Some s →
  length (bufferedData s) ≤ MAX_BUFFER_SIZE.
Proof. intros Hr. apply (run_inv _ _ _ _ init_inv Hr). Qed.

Lemma queue_never_exceeds_capacity_witness :
  ∃ s, run never_throws (burst 10) init = Some s
    ∧ length (bufferedData s) ≤ MAX_BUFFER_SIZE.
Proof.
  eexists. split; [reflexivity|].
  apply (queue_never_exceeds_capacity never_throws (burst 10)). reflexivity.
Defined.

(** X12. No listener and no timer callback lets an exception escape: in every
    state a session can reach, every event the runtime can deliver is handled
    to normal completion, whichever [send] and [close] calls throw. *)
Theorem no_listener_lets_an_exception_escape
    (throws : nat → bool) (evs : list Event) (s : Session)
    (e : Event) (c : Completion) (s' : Session) :
  run throws evs init = Some s →
  dispatch throws e s = Some (c, s') →
  c = Normal.
Proof.
  intros Hr Hd. apply (handlers_complete throws e s c s'); [|done].
  apply (run_inv _ _ _ _ init_inv Hr).
Qed.

Lemma no_listener_lets_an_exception_escape_witness :
  ∃ s s', run (throws_at 0) [ServerMessage frameA] init = Some s
    ∧ dispatch (throws_at 0) UpstreamOpen s = Some (Normal, s').
Proof.
  eexists. 
  destruct (dispatch (throws_at 0) UpstreamOpen
              (mkSession [frameA] (Some 1) false None CONNECTING OPEN
                 [1] [] 2 [] false)) as [[c s']|] eqn:Hd; [|discriminate Hd].
  exists s'. split; [reflexivity|].
  rewrite (no_listener_lets_an_exception_escape (throws_at 0)
             [ServerMessage frameA] _ UpstreamOpen c s' eq_refl Hd) in Hd.
  exact Hd.
Defined.

(** X13. In every session at most one buffer-deadline timer and at most one
    keepalive interval are pending, and a pending one is the one whose handle
    is in [bufferTimeout], respectively [keepaliveTimer]: no timer is lost
    track of. *)
Theorem at_most_one_timer_of_each_kind
    (throws : nat → bool) (evs : list Event) (s : Session) :
  run throws evs init = Some s →
  length (timeouts s) ≤ 1 ∧ length (intervals s) ≤ 1
  ∧ (∀ id, id ∈ timeouts s → bufferTimeout s = Some id)
  ∧ (∀ id, id ∈ intervals s → keepaliveTimer s = Some id).
Proof.
  intros Hr. pose proof (run_inv _ _ _ _ init_inv Hr) as HI.
  destruct (inv_timeouts _ HI) as [Ht|(id1 & Hv1 & Ht)];
    destruct (inv_intervals _ HI) as [Hi|(id2 & Hv2 & Hi)];
    rewrite Ht, Hi; simpl; split_and!; try lia;
    intros id Hin; try (by apply elem_of_nil in Hin);
    apply list_elem_of_singleton in Hin; by subst.
Qed.

Lemma at_most_one_timer_of_each_kind_witness :
  ∃ s, run never_throws (burst 3 ++ [UpstreamOpen]) init = Some s
    ∧ length (intervals s) ≤ 1.
Proof.
  eexists. split; [reflexivity|].
  apply (at_most_one_timer_of_each_kind never_throws (burst 3 ++ [UpstreamOpen])).
  reflexivity.
Defined.

(** ** Where frames are sent *)

Lemma sends_to_snoc (k : Conn) (l : list Call) (x : Call) :
  sends_to k (l ++ [x]) = sends_to k l ++ (if is_send_to k x then [x] else []).
Proof. unfold sends_to. rewrite List.filter_app. simpl. by destruct (is_send_to k x). Qed.

Lemma sends_to_app (k : Conn) (l1 l2 : list Call) :
  sends_to k (l1 ++ l2) = sends_to k l1 ++ sends_to k l2.
Proof. apply List.filter_app. Qed.

Lemma sends_to_server_flushed (f : Frame → Call) (q : list Frame) :
  (∀ d, is_send_to Server (f d) = false) → sends_to Server (map f q) = [].
Proof.
  intros Hf. unfold sends_to. induction q as [|d q IH]; [done|].
  simpl. by rewrite Hf.
Qed.

Ltac sends_nf :=
  rewrite ?sends_to_snoc; cbn [is_send_to]; rewrite ?app_nil_r.

Ltac solve_sends :=
  simpl_session; sends_nf;
  repeat match goal with
  | |- _ ∧ _ => split
  | |- _ → _ => intros
  end;
  first
    [ reflexivity
    | discriminate
    | right; reflexivity
    | left; reflexivity
    | match goal with H : ?a ≠ ?a |- _ => exfalso; apply H; reflexivity end ].

(** What one event can send, in any state. *)
Lemma dispatch_sends (throws : nat → bool) (e : Event) (s : Session)
    (c : Completion) (s' : Session) :
  dispatch throws e s = Some (c, s') →
  (sends_to Upstream (calls s') ≠ sends_to Upstream (calls s) →
   e = UpstreamOpen ∨ upstream_readyState s = OPEN)
  ∧ (sends_to Server (calls s') ≠ sends_to Server (calls s) →
     server_readyState s = OPEN)
  ∧ (winding_down (upstream_readyState s) = true →
     winding_down (upstream_readyState s') = true
     ∧ sends_to Upstream (calls s') = sends_to Upstream (calls s)).
Proof.
  intros Hd. destruct e; cbn [dispatch] in Hd.
  - (* the upstream opens *)
    destruct (upstream_readyState s) eqn:Hur; try discriminate Hd.
    rewrite upstream_on_open_eq in Hd. cbv zeta in Hd.
    split; [by left|]. split; [|discriminate].
    intros Hne. exfalso. apply Hne. clear Hne.
    destruct s as [q [b|] u [k|] ur sr ts ivs n l t]; simpl_session.
    all: destruct (first_failure throws (length l) (length q)) as [j|].
    all: unfold close in Hd; simpl_session.
    all: split_if Hd; inversion Hd; subst; clear Hd; simpl_session.
    all: rewrite !sends_to_app, ?sends_to_server_flushed by done;
      cbn [sends_to List.filter is_send_to app]; by rewrite ?app_nil_r.
  - destruct s as [q [b|] u [k|] ur sr ts ivs n l t]; simpl_session.
    all: destruct (receiving sr); [|discriminate].
    all: destruct u, ur; step_cases Hd; solve_sends.
  - destruct s as [q [b|] u [k|] ur sr ts ivs n l t]; simpl_session.
    all: destruct ur; cbn [receiving] in Hd; try discriminate Hd.
    all: destruct sr; step_cases Hd; solve_sends.
  - destruct s as [q [b|] u [k|] ur sr ts ivs n l t]; simpl_session.
    all: destruct sr; cbn [not_closed] in Hd; try discriminate Hd.
    all: destruct ur; step_cases Hd; solve_sends.
  - destruct s as [q [b|] u [k|] ur sr ts ivs n l t]; simpl_session.
    all: destruct ur; cbn [not_closed] in Hd; try discriminate Hd.
    all: destruct sr; step_cases Hd; solve_sends.
  - destruct s as [q [b|] u [k|] ur sr ts ivs n l t]; simpl_session.
    all: destruct ur, sr; step_cases Hd; solve_sends.
  - destruct s as [q [b|] u [k|] ur sr ts ivs n l t]; simpl_session.
    all: destruct ur, sr; step_cases Hd; solve_sends.
  - destruct s as [q b u k ur sr ts ivs n l t]; simpl_session.
    destruct (member id ts); [|discriminate].
    destruct ur, sr; step_cases Hd; solve_sends.
  - destruct s as [q b u [k|] ur sr ts ivs n l t]; simpl_session.
    all: destruct (member id ivs); [|discriminate].
    all: destruct ur; step_cases Hd; solve_sends.
  - destruct s as [q b u k ur sr ts ivs n l t]; simpl_session.
    destruct ur; inversion Hd; subst; solve_sends.
  - destruct s as [q b u k ur sr ts ivs n l t]; simpl_session.
    destruct sr, ur; inversion Hd; subst; solve_sends.
Qed.

(** X14. In any state, an event makes the relay send to the upstream only if
    the upstream socket is open when the listener runs (or the event is the
    upstream opening), and send to the client only if the client socket is
    open: no [send] is attempted on a socket that is connecting, closing or
    closed. *)
Theorem sends_only_on_open_sockets (throws : nat → bool) (e : Event)
    (s : Session) (c : Completion) (s' : Session) :
  dispatch throws e s = Some (c, s') →
  (sends_to Upstream (calls s') ≠ sends_to Upstream (calls s) →
   e = UpstreamOpen ∨ upstream_readyState s = OPEN)
  ∧ (sends_to Server (calls s') ≠ sends_to Server (calls s) →
     server_readyState s = OPEN).
Proof.
  intros Hd. destruct (dispatch_sends throws e s c s' Hd) as (H1 & H2 & _).
  by split.
Qed.

Lemma sends_only_on_open_sockets_witness :
  ∃ s', dispatch never_throws (UpstreamMessage frameA)
          (set_upstream_readyState OPEN init) = Some (Normal, s')
    ∧ server_readyState (set_upstream_readyState OPEN init) = OPEN.
Proof.
  eexists. split; [reflexivity|].
  refine (proj2 (sends_only_on_open_sockets never_throws (UpstreamMessage frameA)
                   (set_upstream_readyState OPEN init) Normal _ eq_refl) _).
  vm_compute. discriminate.
Defined.

Lemma upstream_received_of_sends (l : list Call) :
  upstream_received (sends_to Upstream l) = upstream_received l.
Proof.
  induction l as [|x l IH]; [done|].
  change (x :: l) with ([x] ++ l).
  rewrite sends_to_app, !upstream_received_app, IH. f_equal.
  by destruct x as [[|] [] d []|k a r].
Qed.

(** X15. Once the upstream socket is closing or closed it stays so, and
    nothing more is ever sent to it: whatever happens afterwards, the frames
    the upstream has received do not change, so a frame the client sends from
    then on is never delivered. *)
Theorem nothing_sent_upstream_once_closing
    (throws : nat → bool) (evs : list Event) (s s' : Session) :
  winding_down (upstream_readyState s) = true →
  run throws evs s = Some s' →
  winding_down (upstream_readyState s') = true
  ∧ sends_to Upstream (calls s') = sends_to Upstream (calls s)
  ∧ upstream_received (calls s') = upstream_received (calls s).
Proof.
  intros Hw Hr.
  assert (H : winding_down (upstream_readyState s') = true
              ∧ sends_to Upstream (calls s') = sends_to Upstream (calls s)).
  { revert s Hw Hr. induction evs as [|e evs IH]; intros s Hw Hr; simpl in Hr.
    - by inversion Hr; subst.
    - destruct (dispatch throws e s) as [[c s1]|] eqn:Hd; [|done].
      destruct (dispatch_sends throws e s c s1 Hd) as (_ & _ & H3).
      destruct (H3 Hw) as [Hw1 Hs1].
      destruct (IH s1 Hw1 Hr) as [Hw2 Hs2]. split; [done|]. by rewrite Hs2. }
  destruct H as [H1 H2]. split_and!; [done|done|].
  by rewrite <- (upstream_received_of_sends (calls s')), H2,
    upstream_received_of_sends.
Qed.

Lemma nothing_sent_upstream_once_closing_witness :
  ∃ s s', run never_throws [UpstreamOpen; UpstreamClosing] init = Some s
    ∧ run never_throws [ServerMessage frameA; ServerMessage frameB] s = Some s'
    ∧ upstream_received (calls s') = upstream_received (calls s).
Proof.
  exists (mkSession [] None true (Some 1) CLOSING OPEN [] [1] 2 [] false).
  eexists. split; [reflexivity|]. split; [reflexivity|].
  apply (nothing_sent_upstream_once_closing never_throws
           [ServerMessage frameA; ServerMessage frameB]
           (mkSession [] None true (Some 1) CLOSING OPEN [] [1] 2 [] false));
    reflexivity.
Defined.

(** ** Single listeners *)

(** X16. A keepalive tick is never fatal.  With the upstream open and the
    send returning, the text frame [KEEPALIVE_MESSAGE] is sent and nothing
    else changes.  With the upstream not open nothing is sent, and with the
    send throwing nothing more is called; in both cases the interval is
    cleared, while the queue, the ready flag, the deadline timer and both
    sockets stay as they were and [cleanup] does not run. *)
Theorem keepalive_tick_is_not_fatal (throws : nat → bool) (s : Session) :
  ∃ s', keepalive_tick throws s = (Normal, s')
    ∧ bufferedData s' = bufferedData s
    ∧ isUpstreamConnected s' = isUpstreamConnected s
    ∧ bufferTimeout s' = bufferTimeout s ∧ timeouts s' = timeouts s
    ∧ upstream_readyState s' = upstream_readyState s
    ∧ server_readyState s' = server_readyState s
    ∧ tornDown s' = tornDown s
    ∧ if is_open (upstream_readyState s)
      then if throws (length (calls s))
           then calls s' = calls s ++
                  [Send Upstream Keepalive (Text KEEPALIVE_MESSAGE) false]
                ∧ keepaliveTimer s' = None
                ∧ handle_pending (keepaliveTimer s) (intervals s') = false
           else s' = set_calls
                       (calls s ++
                        [Send Upstream Keepalive (Text KEEPALIVE_MESSAGE) true]) s
      else calls s' = calls s
           ∧ keepaliveTimer s' = None
           ∧ handle_pending (keepaliveTimer s) (intervals s') = false.
Proof.
  unfold keepalive_tick. unfold_stmt. unfold handle_pending.
  destruct s as [q b u [k|] ur sr ts ivs n l t]; simpl_session;
    destruct ur; cbn [is_open];
    try (destruct (throws (length l)));
    (eexists; split; [reflexivity|]); simpl_session;
    split_and!; try reflexivity; apply remove_timer_not_member.
Qed.

(** X17. Live forwarding.  With the ready flag set and the upstream open, a
    client frame is sent to the upstream as it is and nothing else changes: it
    is not queued and no timer is touched.  If that send throws, the session
    is torn down and [server.close(1011, "upstream_ws_error")] is called. *)
Theorem live_frame_is_forwarded_unchanged
    (throws : nat → bool) (d : Frame) (s : Session) :
  isUpstreamConnected s = true → upstream_readyState s = OPEN →
  if throws (length (calls s))
  then ∃ s', server_on_message throws d s = (Normal, s')
         ∧ calls s' = calls s ++
             [Send Upstream Live d false;
              Close Server (Some (1011%Z, "upstream_ws_error"%string))
                (negb (throws (S (length (calls s)))))]
         ∧ bufferedData s' = [] ∧ tornDown s' = true
         ∧ bufferTimeout s' = None ∧ keepaliveTimer s' = None
  else server_on_message throws d s
       = (Normal, set_calls (calls s ++ [Send Upstream Live d true]) s).
Proof.
  intros Hu Hur. unfold server_on_message. unfold_stmt.
  rewrite Hu, Hur. cbn [andb is_open].
  destruct (throws (length (calls s))) eqn:Ht; [|reflexivity].
  destruct s as [q [b|] u [k|] ur sr ts ivs n l t]; simpl_session;
    rewrite length_app; cbn [length]; rewrite Nat.add_1_r;
    destruct (throws (S (length l))); simpl_session;
    (eexists; split; [reflexivity|]); simpl_session;
    split_and!; try reflexivity; by rewrite <- app_assoc.
Qed.

Lemma live_frame_is_forwarded_unchanged_witness :
  ∃ s, run never_throws [UpstreamOpen] init = Some s
    ∧ server_on_message never_throws frameB s
      = (Normal, set_calls (calls s ++ [Send Upstream Live frameB true]) s).
Proof.
  eexists. split; [reflexivity|].
  exact (live_frame_is_forwarded_unchanged never_throws frameB
           (mkSession [] None true (Some 1) OPEN OPEN [] [1] 2 [] false)
           eq_refl eq_refl).
Defined.

(** X18. The buffer deadline runs from the first queued frame.  While the
    upstream cannot take frames: a frame that joins a queue that is neither
    empty nor full leaves the timers as they are, so later frames do not
    extend the deadline; a frame that finds the queue empty (and the queue has
    room) cancels the timer whose handle is in [bufferTimeout], if any, and
    arms a fresh one. *)
Theorem deadline_runs_from_first_queued_frame
    (throws : nat → bool) (d : Frame) (s : Session) :
  isUpstreamConnected s && is_open (upstream_readyState s) = false →
  length (bufferedData s) < MAX_BUFFER_SIZE →
  ∃ s', server_on_message throws d s = (Normal, s')
    ∧ bufferedData s' = bufferedData s ++ [d]
    ∧ match bufferedData s with
      | _ :: _ =>
          timeouts s' = timeouts s ∧ bufferTimeout s' = bufferTimeout s
          ∧ next_timer s' = next_timer s
      | [] =>
          bufferTimeout s' = Some (next_timer s)
          ∧ timeouts s'
            = match bufferTimeout s with
              | Some old => remove_timer old (timeouts s)
              | None => timeouts s
              end ++ [next_timer s]
          ∧ next_timer s' = S (next_timer s)
      end.
Proof.
  intros Hc Hlen. apply Nat.leb_gt in Hlen.
  unfold server_on_message. unfold_stmt. rewrite Hc, Hlen.
  destruct s as [q [b|] u k ur sr ts ivs n l t]; simpl_session;
    destruct q as [|d0 q0]; cbn [length Nat.eqb]; simpl_session;
    (eexists; split; [reflexivity|]); simpl_session;
    split_and!; reflexivity.
Qed.

Lemma deadline_runs_from_first_queued_frame_witness :
  ∃ s s', run never_throws [ServerMessage frameA] init = Some s
    ∧ server_on_message never_throws frameB s = (Normal, s')
    ∧ bufferedData s' = [frameA; frameB].
Proof.
  eexists.
  destruct (deadline_runs_from_first_queued_frame never_throws frameB
              (mkSession [frameA] (Some 1) false None CONNECTING OPEN
                 [1] [] 2 [] false) eq_refl) as (s' & H1 & H2 & _).
  - unfold MAX_BUFFER_SIZE. simpl. lia.
  - exists s'. split; [reflexivity|]. split; [exact H1 | exact H2].
Defined.

(** ** The end of a session *)

Lemma dispatch_released (throws : nat → bool) (e : Event) (s : Session)
    (c : Completion) (s' : Session) :
  Inv s → (both_closed s = true → released s) →
  dispatch throws e s = Some (c, s') →
  both_closed s' = true → released s'.
Proof.
  intros [H1 H2 _ _ _ _ _ _] Hrel Hd.
  destruct s as [q [b|] u [k|] ur sr ts ivs n l t]; simpl_session.
  all: timers_nf.
  all: unfold both_closed, released in *; simpl_session.
  all: destruct e; cbn [dispatch] in Hd; simpl_session.
  all: destruct ur, sr;
       cbn [receiving not_closed] in Hd; try discriminate Hd.
  all: try (destruct (member id _) eqn:Hm; [|discriminate Hd]).
  all: try (destruct Hrel as (-> & -> & ->); [reflexivity|];
            try discriminate Hm).
  all: try (rewrite upstream_on_open_eq in Hd; cbv zeta in Hd;
            simpl_session;
            destruct (first_failure throws _ _);
            unfold close in Hd; simpl_session).
  all: unfold_handlers; unfold_stmt; simpl_session;
       cbn [andb is_open negb] in Hd; split_if Hd;
       inversion Hd; subst; clear Hd; simpl_session.
  all: try discriminate.
  all: intros;
       try (destruct (Hrel eq_refl) as (? & ? & ?); subst; try discriminate);
       rewrite ?Hclear, ?Hclear0; by split_and!.
Qed.

(** X19. When both sockets of a session are closed, nothing is left behind:
    no timer is pending and the queue is empty, in every session and whichever
    side closed first. *)
Theorem closed_session_holds_nothing
    (throws : nat → bool) (evs : list Event) (s : Session) :
  run throws evs init = Some s →
  both_closed s = true →
  released s.
Proof.
  assert (H : ∀ s0, Inv s0 → (both_closed s0 = true → released s0) →
                    run throws evs s0 = Some s →
                    both_closed s = true → released s).
  { induction evs as [|e evs IH]; intros s0 HI Hrel Hr; simpl in Hr.
    - by inversion Hr; subst.
    - destruct (dispatch throws e s0) as [[c s1]|] eqn:Hd; [|done].
      apply (IH s1); [|eauto using dispatch_released|done].
      apply (dispatch_facts _ _ _ _ _ HI Hd). }
  apply (H init init_inv). discriminate.
Qed.

Lemma closed_session_holds_nothing_witness :
  ∃ s, run never_throws
         (burst 2 ++ [UpstreamOpen; KeepaliveTick 2; UpstreamClose;
                      ServerMessage frameB; ServerClose]) init = Some s
    ∧ released s.
Proof.
  eexists. split; [reflexivity|].
  apply (closed_session_holds_nothing never_throws
           (burst 2 ++ [UpstreamOpen; KeepaliveTick 2; UpstreamClose;
                        ServerMessage frameB; ServerClose])); reflexivity.
Defined.

End RelayMoreFacts.
